(** * SequenceTester: a mock device adapter for testing device sequencing

    A shallow embedding of [DeviceAdapters/SequenceTester/SequenceTester.cpp]
    and of the two collaborators it is written against (the setting logger
    and the settings, declared in [SequenceTesterImpl.h]).

    - [SettingLogger], [Setting]: the mutex-guarded event log and the value
      cells that route every access through it.
    - [Camera]: [TesterCamera], with its sequence-acquisition thread as a
      small-step machine interleaved with the controlling thread.
    - [XYStage]: the position accessors of [TesterXYStage].
    - [CameraSettings]: the binning and exposure accessors of
      [TesterCamera].
    - [Hub]: [CreateDevice] and [TesterHub::DetectInstalledDevices]. *)

From Stdlib Require Import ZArith Floats Strings.Byte.
From stdpp Require Import base tactics option list strings pretty numbers
  sorting gmap.

Local Open Scope Z_scope.

(** ** Result codes

    The adapter returns [int] codes and only ever compares them with the
    named macros of [MMDeviceConstants.h]; the numeric values are not needed,
    so the codes are an enumeration.  [OutOfRange], [InvalidState] and
    [InsufficientCapacity] are the error kinds of the settings layer; any
    further code a host may hand back is [OtherCode n]. *)
Inductive ResultCode : Type :=
  | DEVICE_OK
  | DEVICE_ERR
  | DEVICE_UNSUPPORTED_COMMAND
  | DEVICE_BUFFER_OVERFLOW
  | OutOfRange
  | InvalidState
  | InsufficientCapacity
  | OtherCode (n : Z).

#[global] Instance ResultCode_eq_dec : EqDecision ResultCode.
Proof. solve_decision. Defined.

(** C++ [unsigned]: 32 bits, arithmetic modulo [2^32]. *)
Definition UINT_MODULUS : Z := 2 ^ 32.
Definition uint_wrap (z : Z) : Z := z mod UINT_MODULUS.

(** C++ [size_t]: 64-bit unsigned, arithmetic modulo [2^64]. *)
Definition SIZE_MODULUS : Z := 2 ^ 64.
Definition size_wrap (z : Z) : Z := z mod SIZE_MODULUS.
Definition size_succ (z : Z) : Z := size_wrap (z + 1).

(** ** Bytes *)
Definition byte_of_Z (z : Z) : byte :=
  default x00 (Byte.of_N (Z.to_N (z mod 256))).

(** Eight bytes, least significant first. *)
Definition u64_le (z : Z) : list byte :=
  (λ i, byte_of_Z (Z.shiftr z (8 * i))) <$> seqZ 0 8.

Definition text_bytes (s : string) : list byte := String.list_byte_of_string s.

(** A length-prefixed field. *)
Definition field (bs : list byte) : list byte :=
  u64_le (Z.of_nat (length bs)) ++ bs.

Definition Z_of_byte (b : byte) : Z := Z.of_N (Byte.to_N b).

(** The number a little-endian byte string stands for. *)
Fixpoint le_decode (bs : list byte) : Z :=
  match bs with
  | [] => 0
  | b :: bs => Z_of_byte b + 256 * le_decode bs
  end.

(** ** The setting logger *)
Module SettingLogger.

Inductive AccessKind : Type := Read | Write.

Record LogEntry : Type := mkEntry {
    globalSequenceNumber : Z;
    threadId : nat;
    settingName : string;
    kind : AccessKind;
    valueAsText : string
  }.

  (** Modelled from the spec: the logger class (declared in
      [SequenceTesterImpl.h], absent here).  It owns the ordered sequence of
      entries and the monotonic 64-bit counter; [guardDepth] is the hold
      count of its re-entrant lock. *)
Record t : Type := mkLogger {
    counter : Z;
    entries : list LogEntry;
    guardDepth : nat
  }.

Definition empty : t := mkLogger 0 [] 0.

  (** Modelled from the spec: [guard()] acquires the exclusive, re-entrant
      lock; the scope exit of the returned handle releases it. *)
Definition Guard (lg : t) : t :=
    mkLogger (counter lg) (entries lg) (S (guardDepth lg)).

Definition Release (lg : t) : t :=
    mkLogger (counter lg) (entries lg) (pred (guardDepth lg)).

  (** Modelled from the spec: [recordWrite] / [recordRead] append an entry
      with a freshly assigned sequence number. *)
Definition record (k : AccessKind) (tid : nat) (name text : string)
      (lg : t) : t :=
    mkLogger (size_succ (counter lg))
             (entries lg ++ [mkEntry (counter lg) tid name k text])
             (guardDepth lg).

Definition recordWrite := record Write.
Definition recordRead := record Read.

  (** The textual digest of the log. *)
Definition render_kind (k : AccessKind) : string :=
    match k with Read => "R" | Write => "W" end.

Definition render_entry (e : LogEntry) : string :=
    pretty (globalSequenceNumber e) +:+ " " +:+ pretty (threadId e) +:+ " "
      +:+ settingName e +:+ " " +:+ render_kind (kind e) +:+ " "
      +:+ valueAsText e +:+ String (Ascii.ascii_of_nat 10) "".

Definition digest (es : list LogEntry) : string :=
    foldr (λ e acc, render_entry e +:+ acc) "" es.

  (** Modelled from the spec: the synthetic frame payload, encoding the
      device name, the still/sequence flag, the two counters and the digest
      of the log. *)
Definition encode (deviceName : string) (isSequenceImage : bool)
      (cumulativeCount localCount : Z) (es : list LogEntry) : list byte :=
    field (text_bytes deviceName)
      ++ [if isSequenceImage then x01 else x00]
      ++ u64_le cumulativeCount
      ++ u64_le localCount
      ++ field (text_bytes (digest es)).

  (** The payload up to the digest. *)
Definition encode_header (deviceName : string) (isSequenceImage : bool)
      (cumulativeCount localCount : Z) : list byte :=
    field (text_bytes deviceName)
      ++ [if isSequenceImage then x01 else x00]
      ++ u64_le cumulativeCount
      ++ u64_le localCount.

  (** Modelled from the spec: the payload can be decoded by a test harness.
      This reads back the device name, the still/sequence flag and the two
      counters from the head of a buffer; [None] when the buffer ends before
      the counters do. *)
Definition decode_header (bs : list byte) : option (string * bool * Z * Z) :=
    let n := Z.to_nat (le_decode (take 8 bs)) in
    match drop (8 + n) bs with
    | flag :: rest =>
        if decide (16 ≤ length rest)%nat
        then Some (String.string_of_list_byte (take n (drop 8 bs)),
                   negb (Byte.eqb flag x00),
                   le_decode (take 8 rest),
                   le_decode (take 8 (drop 8 rest)))
        else None
    | [] => None
    end.

  (** Copy [src] into [buf] from offset [off], never at or beyond [limit];
      returns the buffer and the offset reached. *)
Fixpoint write_bytes (buf : list byte) (off limit : nat) (src : list byte)
      : list byte * nat :=
    match src with
    | [] => (buf, off)
    | b :: rest =>
        if decide (off < limit)%nat
        then write_bytes (<[off:=b]> buf) (S off) limit rest
        else (buf, off)
    end.

Record PackResult : Type := mkPack {
    status : ResultCode;
    bytesWritten : nat;
    buffer : list byte;
    logger : t
  }.

  (** Modelled from the spec: [packAndReset] serialises the payload into the
      caller's buffer, truncating at [bufferSize] and reporting
      insufficient capacity when the encoding does not fit, then clears the
      log.  [buf] is the memory starting at the buffer's address. *)
Definition PackAndReset (buf : list byte) (bufferSize : nat)
      (deviceName : string) (isSequenceImage : bool)
      (cumulativeCount localCount : Z) (lg : t) : PackResult :=
    let enc := encode deviceName isSequenceImage cumulativeCount localCount
                 (entries lg) in
    let '(buf', n) := write_bytes buf 0 bufferSize enc in
    mkPack (if decide (bufferSize < length enc)%nat
            then InsufficientCapacity else DEVICE_OK)
           n buf'
           (mkLogger (counter lg) [] (guardDepth lg)).

End SettingLogger.

(** ** Settings *)
Module Setting.
Import SettingLogger.

  (** What a setting needs of its value type: the order used by the bounds
      check and the text stored in the log. *)
Class SettingValue (T : Type) : Type := {
    value_ltb : T → T → bool;
    value_text : T → string
  }.

#[global] Instance bool_value : SettingValue bool :=
    {| value_ltb a b := negb a && b;
       value_text b := if b then "1" else "0" |}.

#[global] Instance integer_value : SettingValue Z :=
    {| value_ltb := Z.ltb; value_text := pretty |}.

Definition float_text (f : float) : string :=
    match Prim2SF f with
    | S754_zero s => if s then "-0" else "0"
    | S754_infinity s => if s then "-inf" else "inf"
    | S754_nan => "nan"
    | S754_finite s m e =>
        (if s then "-" else "") +:+ pretty (Z.pos m) +:+ "p" +:+ pretty e
    end.

#[global] Instance real_value : SettingValue float :=
    {| value_ltb := PrimFloat.ltb; value_text := float_text |}.

  (** Modelled from the spec: the value cell of [SequenceTesterImpl.h]
      (absent here), as in the data model: name, value, optional bounds, the
      pre-init-only restriction and whether the owner is initialised. *)
Record t (T : Type) : Type := mkSetting {
    name : string;
    value : T;
    min : option T;
    max : option T;
    preInitOnly : bool;
    initialized : bool
  }.
Arguments mkSetting {T}.
Arguments name {T}.
Arguments value {T}.
Arguments min {T}.
Arguments max {T}.
Arguments preInitOnly {T}.
Arguments initialized {T}.

Section Ops.
Context {T : Type} `{SettingValue T}.

Definition below_min (s : t T) (v : T) : bool :=
      match min s with Some lo => value_ltb v lo | None => false end.

Definition above_max (s : t T) (v : T) : bool :=
      match max s with Some hi => value_ltb hi v | None => false end.

Definition with_value (s : t T) (v : T) : t T :=
      mkSetting (name s) v (min s) (max s) (preInitOnly s) (initialized s).

    (** Modelled from the spec: [get] holds the guard, records a Read and
        returns the value. *)
Definition Get (tid : nat) (s : t T) (lg : SettingLogger.t)
        : T * SettingLogger.t :=
      let lg := Guard lg in
      let lg := recordRead tid (name s) (value_text (value s)) lg in
      (value s, Release lg).

    (** Modelled from the spec: [set] validates the pre-init restriction,
        then the bounds, then records a Write and stores the value, all
        under one guard acquisition. *)
Definition Set_ (tid : nat) (v : T) (s : t T) (lg : SettingLogger.t)
        : ResultCode * t T * SettingLogger.t :=
      let lg := Guard lg in
      if preInitOnly s && initialized s then (InvalidState, s, Release lg)
      else if below_min s v || above_max s v then (OutOfRange, s, Release lg)
      else
        let lg := recordWrite tid (name s) (value_text v) lg in
        (DEVICE_OK, with_value s v, Release lg).
End Ops.

  (** Modelled from the spec: the one-shot variant has no value; its [set]
      records a Write with a placeholder and succeeds. *)
Record OneShot : Type := mkOneShot { os_name : string }.

Definition SetOneShot (tid : nat) (s : OneShot) (lg : SettingLogger.t)
      : ResultCode * SettingLogger.t :=
    let lg := Guard lg in
    let lg := recordWrite tid (os_name s) "" lg in
    (DEVICE_OK, Release lg).

  (** The settings of all devices, by name, sharing one logger. *)
Inductive AnySetting : Type :=
    | BoolSetting (s : t bool)
    | IntegerSetting (s : t Z)
    | FloatSetting (s : t float)
    | OneShotSetting (s : OneShot).

Record World : Type := mkWorld {
    settings : gmap string AnySetting;
    log : SettingLogger.t
  }.

  (** One call on a setting, made by thread [tid].  Every call runs under
      the logger's guard, so concurrent calls are serialised: an execution
      is a list of calls in the order of their critical sections. *)
Inductive Call : Type :=
    | CallGet (tid : nat) (key : string)
    | CallSetBool (tid : nat) (key : string) (v : bool)
    | CallSetInteger (tid : nat) (key : string) (v : Z)
    | CallSetFloat (tid : nat) (key : string) (v : float)
    | CallSetOneShot (tid : nat) (key : string).

Definition do_call (c : Call) (w : World) : World :=
    match c with
    | CallGet tid key =>
        match settings w !! key with
        | Some (BoolSetting s) => mkWorld (settings w) (Get tid s (log w)).2
        | Some (IntegerSetting s) => mkWorld (settings w) (Get tid s (log w)).2
        | Some (FloatSetting s) => mkWorld (settings w) (Get tid s (log w)).2
        | _ => w
        end
    | CallSetBool tid key v =>
        match settings w !! key with
        | Some (BoolSetting s) =>
            let '(_, s', lg) := Set_ tid v s (log w) in
            mkWorld (<[key := BoolSetting s']> (settings w)) lg
        | _ => w
        end
    | CallSetInteger tid key v =>
        match settings w !! key with
        | Some (IntegerSetting s) =>
            let '(_, s', lg) := Set_ tid v s (log w) in
            mkWorld (<[key := IntegerSetting s']> (settings w)) lg
        | _ => w
        end
    | CallSetFloat tid key v =>
        match settings w !! key with
        | Some (FloatSetting s) =>
            let '(_, s', lg) := Set_ tid v s (log w) in
            mkWorld (<[key := FloatSetting s']> (settings w)) lg
        | _ => w
        end
    | CallSetOneShot tid key =>
        match settings w !! key with
        | Some (OneShotSetting s) =>
            mkWorld (settings w) (SetOneShot tid s (log w)).2
        | _ => w
        end
    end.

Definition run_calls (cs : list Call) (w : World) : World :=
    foldl (λ w c, do_call c w) w cs.

(** What one critical section may do to the log: nothing, or append one
    entry that carries the counter's value and advance the counter. *)
Definition log_step (lg lg' : SettingLogger.t) : Prop :=
  lg' = lg ∨
  ∃ e, globalSequenceNumber e = counter lg ∧
       lg' = mkLogger (size_succ (counter lg)) (entries lg ++ [e])
               (guardDepth lg).

(** Modelled from the spec: [Setting<T>::New(logger, device, name,
    initialValue, hasMinMax, min, max)] as [Initialize] calls it
    ([FloatSetting::New(..., "Exposure", 100.0, true, 0.1, 1000.0)]): the
    bounds are present exactly when [hasMinMax] is set, and a cell made this
    way carries no pre-init restriction. *)
Definition New {T : Type} (name : string) (initialValue : T)
    (hasMinMax : bool) (min max : T) : t T :=
  mkSetting name initialValue
    (if hasMinMax then Some min else None)
    (if hasMinMax then Some max else None)
    false false.

(** The accesses a setting sees during its life: reads and writes by any
    thread, each under the logger's guard. *)
Inductive Access (T : Type) : Type :=
  | AccessGet (tid : nat)
  | AccessSet (tid : nat) (v : T).
Arguments AccessGet {T}.
Arguments AccessSet {T}.

Definition access {T : Type} `{SettingValue T}
    (sl : t T * SettingLogger.t) (a : Access T) : t T * SettingLogger.t :=
  match a with
  | AccessGet tid => (sl.1, (Get tid sl.1 sl.2).2)
  | AccessSet tid v => let '(_, s, lg) := Set_ tid v sl.1 sl.2 in (s, lg)
  end.

Definition accesses {T : Type} `{SettingValue T} (l : list (Access T))
    (sl : t T * SettingLogger.t) : t T * SettingLogger.t :=
  foldl access sl l.

(** The two settings [TesterCamera::Initialize] creates: exposure 100.0
    within [0.1, 1000.0] (0.1 as the nearest binary64 value) and binning 1
    within [1, 1]. *)
Definition exposure : t float :=
  mkSetting "Exposure" 100.0%float (Some 0x1.999999999999ap-4%float)
    (Some 1000.0%float) false false.

Definition binning : t Z :=
  mkSetting "Binning" 1 (Some 1) (Some 1) false false.

Definition camera_world : World :=
  mkWorld (<["Exposure" := FloatSetting exposure]>
             (<["Binning" := IntegerSetting binning]> ∅))
          SettingLogger.empty.

(** Two threads at work on the camera's settings; the third call is out of
    range and leaves no entry. *)
Definition camera_calls : list Call :=
  [ CallSetFloat 1 "Exposure" 50.0%float;
    CallGet 2 "Binning";
    CallSetInteger 1 "Binning" 5;
    CallGet 2 "Exposure" ].

(** Modelled from the spec: [get(out) -> Result], which never fails. *)
Definition GetTo {T : Type} `{SettingValue T} (tid : nat) (s : Setting.t T)
    (lg : SettingLogger.t) : ResultCode * T * SettingLogger.t :=
  let '(v, lg) := Get tid s lg in (DEVICE_OK, v, lg).

(** A setting without bounds and without the pre-init restriction. *)
Definition unrestricted {T : Type} (s : Setting.t T) : Prop :=
  Setting.min s = None ∧ Setting.max s = None ∧ preInitOnly s = false.

End Setting.

(** ** The camera *)
Module Camera.

(** What [GenerateLogImage] hands back: the byte buffer, kept together with
    the arguments that were packed into it. *)
Record Frame : Type := mkFrame {
  isSequenceImage : bool;
  cumulativeCount : Z;
  localCount : Z;
  bytes : list byte
}.

(** What the camera does that is visible from outside, newest first: the
    calls on the core callback and the images it generates. *)
Inductive Event : Type :=
  | EvPrepareForAcq
  | EvGenerate (f : Frame)
  | EvInsertImage (f : Frame) (width height bytesPerPixel : Z)
      (allowOverflow : bool)
  | EvClearImageBuffer
  | EvAcqFinished.

(** What the camera is written against and this file does not contain: the
    host's callback ([MM::Core]), each answer a function of everything the
    camera did before the call, and the pixel depth of the header. *)
Record Environment : Type := mkEnv {
  core_InsertImage : list Event → Frame → bool → ResultCode;
  core_AcqFinished : list Event → ResultCode;
  GetImageBytesPerPixel : Z
}.

(** The outcome a [boost::packaged_task<void>] stores: it returned, or it
    threw a [DeviceError] carrying a code. *)
Inductive Outcome : Type :=
  | Returned
  | Threw (code : ResultCode).

Inductive Future : Type :=
  | Uninitialized
  | Waiting
  | Ready (o : Outcome).

(** Where the capture thread stands in [SendSequence]. *)
Inductive PC : Type :=
  | AtLoop
  | AtGenerate
  | AtInsert (f : Frame)
  | AtClear (f : Frame)
  | AtRetry (f : Frame)
  | AtCheck (err : ResultCode)
  | AtThrow (err : ResultCode).

Record Worker : Type := mkWorker {
  finite : bool;
  count : Z;
  stopOnOverflow : bool;
  frame : Z;
  pc : PC
}.

Record State : Type := mkState {
  name : string;
  snapCounter_ : Z;
  cumulativeSequenceCounter_ : Z;
  snapImage_ : option Frame;
  stopSequence_ : bool;
  sequenceFuture_ : Future;
  worker : option Worker;
  logger : SettingLogger.t;
  trace : list Event
}.

Definition set_stopSequence (b : bool) (s : State) : State :=
  mkState (name s) (snapCounter_ s) (cumulativeSequenceCounter_ s)
    (snapImage_ s) b (sequenceFuture_ s) (worker s) (logger s) (trace s).

Definition set_sequenceFuture (f : Future) (s : State) : State :=
  mkState (name s) (snapCounter_ s) (cumulativeSequenceCounter_ s)
    (snapImage_ s) (stopSequence_ s) f (worker s) (logger s) (trace s).

Definition set_worker (w : option Worker) (s : State) : State :=
  mkState (name s) (snapCounter_ s) (cumulativeSequenceCounter_ s)
    (snapImage_ s) (stopSequence_ s) (sequenceFuture_ s) w (logger s)
    (trace s).

Definition set_logger (lg : SettingLogger.t) (s : State) : State :=
  mkState (name s) (snapCounter_ s) (cumulativeSequenceCounter_ s)
    (snapImage_ s) (stopSequence_ s) (sequenceFuture_ s) (worker s) lg
    (trace s).

Definition set_snap (n : Z) (img : option Frame) (s : State) : State :=
  mkState (name s) n (cumulativeSequenceCounter_ s) img (stopSequence_ s)
    (sequenceFuture_ s) (worker s) (logger s) (trace s).

Definition set_cumulative (n : Z) (s : State) : State :=
  mkState (name s) (snapCounter_ s) n (snapImage_ s) (stopSequence_ s)
    (sequenceFuture_ s) (worker s) (logger s) (trace s).

Definition emit (e : Event) (s : State) : State :=
  mkState (name s) (snapCounter_ s) (cumulativeSequenceCounter_ s)
    (snapImage_ s) (stopSequence_ s) (sequenceFuture_ s) (worker s)
    (logger s) (e :: trace s).

Definition at_pc (w : Worker) (p : PC) : Worker :=
  mkWorker (finite w) (count w) (stopOnOverflow w) (frame w) p.

Definition next_frame (w : Worker) : Worker :=
  mkWorker (finite w) (count w) (stopOnOverflow w) (frame w + 1) AtLoop.

(** [TesterCamera::TesterCamera]. *)
Definition TesterCamera (name : string) (lg : SettingLogger.t) : State :=
  mkState name 0 0 None true Uninitialized None lg [].

Definition GetImageWidth : Z := 128.
Definition GetImageHeight : Z := 128.

(** [TesterCamera::GetImageBufferSize]: a product of [unsigned] values,
    which wraps at [2^32] before it is widened to [long] (64 bits, as
    [size_t] is). *)
Definition GetImageBufferSize (env : Environment) : Z :=
  uint_wrap (uint_wrap (GetImageWidth * GetImageHeight)
             * GetImageBytesPerPixel env).

(** [TesterCamera::GenerateLogImage]: a buffer of the image size is
    allocated and handed to the logger's [PackAndReset], whose status is
    ignored. *)
Definition GenerateLogImage (env : Environment) (isSequenceImage : bool)
    (cumulativeCount localCount : Z) (s : State) : Frame * State :=
  let bufSize := Z.to_nat (GetImageBufferSize env) in
  let r := SettingLogger.PackAndReset (replicate bufSize x00) bufSize
             (name s) isSequenceImage cumulativeCount localCount
             (logger s) in
  let f := mkFrame isSequenceImage cumulativeCount localCount
             (SettingLogger.buffer r) in
  (f, emit (EvGenerate f) (set_logger (SettingLogger.logger r) s)).

(** [TesterCamera::SnapImage].  The call leaves the per-run count to the
    default argument of [GenerateLogImage], which is declared in the header;
    it is taken as 0 here, and nothing below depends on its value. *)
Definition SnapImage (env : Environment) (s : State) : ResultCode * State :=
  let '(f, s) := GenerateLogImage env false (snapCounter_ s) 0 s in
  (DEVICE_OK, set_snap (size_succ (snapCounter_ s)) (Some f) s).

Definition IsCapturing (s : State) : bool := negb (stopSequence_ s).

(** The capture task ends: its outcome is stored in the shared state of the
    future, and the detached thread is gone. *)
Definition finish (o : Outcome) (s : State) : State :=
  set_worker None (set_sequenceFuture (Ready o) s).

Definition InsertImage (env : Environment) (f : Frame)
    (allowOverflow : bool) (s : State) : ResultCode * State :=
  (core_InsertImage env (trace s) f allowOverflow,
   emit (EvInsertImage f GetImageWidth GetImageHeight
           (GetImageBytesPerPixel env) allowOverflow) s).

(** One step of [TesterCamera::SendSequence], from one access to shared
    state to the next.  After a failed delivery the stop flag is read under
    the lock ([AtCheck]); the exception is raised once the lock is released
    ([AtThrow]), whatever has happened to the flag since. *)
Definition worker_step (env : Environment) (s : State) : State :=
  match worker s with
  | None => s
  | Some w =>
      match pc w with
      | AtLoop =>
          if negb (negb (finite w) || (frame w <? count w)) then
            finish Returned s
          else if stopSequence_ s then finish Returned s
          else set_worker (Some (at_pc w AtGenerate)) s
      | AtGenerate =>
          let '(f, s) :=
            GenerateLogImage env true (cumulativeSequenceCounter_ s)
              (size_wrap (frame w)) s in
          let s := set_cumulative (size_succ (cumulativeSequenceCounter_ s)) s in
          set_worker (Some (at_pc w (AtInsert f))) s
      | AtInsert f =>
          let '(err, s) := InsertImage env f true s in
          if negb (stopOnOverflow w)
             && bool_decide (err = DEVICE_BUFFER_OVERFLOW)
          then set_worker (Some (at_pc w (AtClear f))) s
          else set_worker (Some (at_pc w (AtCheck err))) s
      | AtClear f =>
          set_worker (Some (at_pc w (AtRetry f))) (emit EvClearImageBuffer s)
      | AtRetry f =>
          let '(err, s) := InsertImage env f false s in
          set_worker (Some (at_pc w (AtCheck err))) s
      | AtCheck err =>
          if bool_decide (err ≠ DEVICE_OK) then
            let stopped := stopSequence_ s in
            if negb stopped then set_worker (Some (at_pc w (AtThrow err))) s
            else finish Returned s
          else set_worker (Some (next_frame w)) s
      | AtThrow err => finish (Threw err) s
      end
  end.

Fixpoint run_worker (fuel : nat) (env : Environment) (s : State) : State :=
  match fuel with
  | O => s
  | S fuel =>
      match worker s with
      | None => s
      | Some _ => run_worker fuel env (worker_step env s)
      end
  end.

(** [TesterCamera::StartSequenceAcquisitionImpl]. *)
Definition StartSequenceAcquisitionImpl (env : Environment)
    (finite : bool) (count : Z) (stopOnOverflow : bool) (s : State)
    : ResultCode * State :=
  if negb (stopSequence_ s) then (DEVICE_ERR, s)
  else
    let s := set_stopSequence false s in
    let s := emit EvPrepareForAcq s in
    let s := set_sequenceFuture Waiting s in
    let s := set_worker
               (Some (mkWorker finite count stopOnOverflow 0 AtLoop)) s in
    (DEVICE_OK, s).

(** The two public overloads. *)
Definition StartSequenceAcquisition (env : Environment) (count : Z)
    (stopOnOverflow : bool) (s : State) : ResultCode * State :=
  StartSequenceAcquisitionImpl env true count stopOnOverflow s.

Definition StartSequenceAcquisition_continuous (env : Environment)
    (s : State) : ResultCode * State :=
  StartSequenceAcquisitionImpl env false 0 false s.

Definition AcqFinished (env : Environment) (s : State) : ResultCode * State :=
  (core_AcqFinished env (trace s), emit EvAcqFinished s).

(** Once the stop flag is set the capture thread ends within this many of
    its steps (see [await_completes]). *)
Definition AWAIT_STEPS : nat := 6.

(** [TesterCamera::StopSequenceAcquisition].  [sequenceFuture_.get()] blocks
    until the capture task has ended; [None] stands for a call that never
    returns. *)
Definition StopSequenceAcquisition (env : Environment) (s : State)
    : option (ResultCode * State) :=
  if stopSequence_ s then Some (DEVICE_OK, s)
  else
    let s := set_stopSequence true s in
    match sequenceFuture_ s with
    | Uninitialized => Some (AcqFinished env s)
    | _ =>
        let s := run_worker AWAIT_STEPS env s in
        match sequenceFuture_ s with
        | Ready (Threw code) =>
            Some (code, set_sequenceFuture Uninitialized s)
        | Ready Returned =>
            Some (AcqFinished env (set_sequenceFuture Uninitialized s))
        | _ => None
        end
    end.

(** What may happen next on a camera with one controlling thread: a call by
    that thread, or a step of the capture thread. *)
Inductive Action : Type :=
  | ActStart (finite : bool) (count : Z) (stopOnOverflow : bool)
  | ActStop
  | ActSnap
  | ActWorker.

Definition step (env : Environment) (s : State) (a : Action) : State :=
  match a with
  | ActStart finite count stopOnOverflow =>
      (StartSequenceAcquisitionImpl env finite count stopOnOverflow s).2
  | ActStop =>
      match StopSequenceAcquisition env s with
      | Some (_, s') => s'
      | None => s
      end
  | ActSnap => (SnapImage env s).2
  | ActWorker => worker_step env s
  end.

Definition exec (env : Environment) (sched : list Action) (s : State)
    : State :=
  foldl (step env) s sched.

(** Readings of a trace. *)
Definition is_AcqFinished (e : Event) : bool :=
  match e with EvAcqFinished => true | _ => false end.

Definition is_PrepareForAcq (e : Event) : bool :=
  match e with EvPrepareForAcq => true | _ => false end.

Definition is_ClearImageBuffer (e : Event) : bool :=
  match e with EvClearImageBuffer => true | _ => false end.

Definition is_InsertImage (e : Event) : bool :=
  match e with EvInsertImage _ _ _ _ _ => true | _ => false end.

Fixpoint count_events (p : Event → bool) (tr : list Event) : nat :=
  match tr with
  | [] => 0
  | e :: tr => (if p e then 1 else 0) + count_events p tr
  end.

(** The sequence frames generated so far, newest first. *)
Fixpoint sequence_frames (tr : list Event) : list Frame :=
  match tr with
  | [] => []
  | EvGenerate f :: tr =>
      if isSequenceImage f then f :: sequence_frames tr
      else sequence_frames tr
  | _ :: tr => sequence_frames tr
  end.



Definition no_stop (a : Action) : bool :=
  match a with ActStop => false | _ => true end.

(** All frames generated so far, stills and sequence frames alike, newest
    first. *)
Fixpoint generated_frames (tr : list Event) : list Frame :=
  match tr with
  | [] => []
  | EvGenerate f :: tr => f :: generated_frames tr
  | _ :: tr => generated_frames tr
  end.


(** What a harness reads back from the bytes of a frame. *)
Definition decoded (f : Frame) : option (string * bool * Z * Z) :=
  SettingLogger.decode_header (bytes f).

(** The bytes of [f] spell out the device [nm] and the flag and counts the
    frame was generated with. *)
Definition decodes (nm : string) (f : Frame) : Prop :=
  decoded f = Some (nm, isSequenceImage f, cumulativeCount f, localCount f).

Definition event_decodes (nm : string) (e : Event) : Prop :=
  match e with
  | EvGenerate f => decodes nm f
  | EvInsertImage f _ _ _ _ => isSequenceImage f = true ∧ decodes nm f
  | _ => True
  end.

(** The image buffer has room for the payload up to the digest: the name
    with its length, the flag and the two counters. *)
Definition header_fits (env : Environment) (nm : string) : Prop :=
  (25 + length (text_bytes nm) ≤ Z.to_nat (GetImageBufferSize env))%nat.

(** *** Predicates on states and traces used by the proofs *)

(** The frame the capture thread holds, generated and not yet delivered. *)
Definition pending_frame (s : State) : option Frame :=
  match worker s with
  | Some w =>
      match pc w with
      | AtInsert f | AtClear f | AtRetry f => Some f
      | _ => None
      end
  | None => None
  end.

Definition frames_decode (nm : string) (s : State) : Prop :=
  name s = nm ∧
  0 ≤ snapCounter_ s < SIZE_MODULUS ∧
  0 ≤ cumulativeSequenceCounter_ s < SIZE_MODULUS ∧
  Forall (event_decodes nm) (trace s) ∧
  match pending_frame s with
  | Some f => isSequenceImage f = true ∧ decodes nm f
  | None => True
  end.



(** The events of the capture thread that [p] does not count. *)
Definition quiet (p : Event → bool) : Prop :=
  (∀ f, p (EvGenerate f) = false) ∧
  (∀ f w h b a, p (EvInsertImage f w h b a) = false) ∧
  p EvClearImageBuffer = false.

(** How many steps the capture thread is away from its end, at most, once
    the stop flag is set. *)
Definition distance (p : PC) : nat :=
  match p with
  | AtLoop => 1
  | AtThrow _ => 1
  | AtCheck _ => 2
  | AtRetry _ => 3
  | AtClear _ => 4
  | AtInsert _ => 5
  | AtGenerate => 6
  end.

(** The exception a thread at [p] is about to raise. *)
Definition about_to_throw (p : PC) : option ResultCode :=
  match p with AtThrow err => Some err | _ => None end.

(** How a thread at [p] ends once the stop flag is set. *)
Definition outcome_of (p : PC) : Outcome :=
  match p with AtThrow err => Threw err | _ => Returned end.

(** The error the next stop will meet: stored by the task, or about to be
    raised by its thread. *)
Definition pending_error (s : State) : option ResultCode :=
  match sequenceFuture_ s with
  | Ready (Threw code) => Some code
  | _ =>
      match worker s with
      | Some w => about_to_throw (pc w)
      | None => None
      end
  end.

(** The thread and the future of its task go together. *)
Definition consistent (s : State) : Prop :=
  match worker s with
  | Some _ => sequenceFuture_ s = Waiting
  | None => sequenceFuture_ s ≠ Waiting
  end.

Definition well_formed (s : State) : Prop :=
  consistent s ∧ (stopSequence_ s = true → worker s = None).




(** A host that takes every frame: at once, or (when overflow is not to
    stop the run) on the retry that follows a reported overflow. *)
Definition delivers (env : Environment) (soo : bool) : Prop :=
  ∀ tr f,
    core_InsertImage env tr f true = DEVICE_OK ∨
    (soo = false ∧
     core_InsertImage env tr f true = DEVICE_BUFFER_OVERFLOW ∧
     core_InsertImage env
       (EvClearImageBuffer
          :: EvInsertImage f GetImageWidth GetImageHeight
               (GetImageBytesPerPixel env) true :: tr) f false = DEVICE_OK).

Definition counts (f : Frame) : Z * Z := (cumulativeCount f, localCount f).

(** *** Hosts and cameras to run the model on *)

(** A host that accepts everything. *)
Definition accepting_host : Environment :=
  mkEnv (λ _ _ _, DEVICE_OK) (λ _, DEVICE_OK) 1.

(** A host whose buffer rejects every frame. *)
Definition failing_host : Environment :=
  mkEnv (λ _ _ _, DEVICE_ERR) (λ _, DEVICE_OK) 1.

(** A host that reports overflow on the first frame it is offered, once. *)
Definition overflow_once_host : Environment :=
  mkEnv (λ tr _ allowOverflow,
           if allowOverflow && (count_events is_InsertImage tr =? 0)%nat
           then DEVICE_BUFFER_OVERFLOW else DEVICE_OK)
        (λ _, DEVICE_OK) 1.

Definition fresh_camera : State := TesterCamera "TCamera-0" SettingLogger.empty.

(** A one-frame run against the failing host, after the capture thread has
    tried to deliver its frame and given up. *)
Definition failed_run : State :=
  exec failing_host
    [ActStart true 1 false; ActWorker; ActWorker; ActWorker; ActWorker;
     ActWorker]
    fresh_camera.

(** The same run one step earlier: the capture thread has read the stop
    flag clear and is about to raise the error. *)
Definition interrupted_run : State :=
  exec failing_host
    [ActStart true 1 false; ActWorker; ActWorker; ActWorker; ActWorker]
    fresh_camera.

(** A three-frame run, started and one frame under way. *)
Definition running_camera : State :=
  exec accepting_host [ActStart true 3 false; ActWorker; ActWorker]
    fresh_camera.

(** *** Snapped images and buffer sizes *)

(** [TesterCamera::GetImageBuffer]. *)
Definition GetImageBuffer (s : State) : option Frame := snapImage_ s.

(** The snapped frames generated so far, newest first. *)
Fixpoint snap_frames (tr : list Event) : list Frame :=
  match tr with
  | [] => []
  | EvGenerate f :: tr =>
      if isSequenceImage f then snap_frames tr else f :: snap_frames tr
  | _ :: tr => snap_frames tr
  end.

(** Every snapped frame embeds the number of snaps before it. *)
Fixpoint snaps_embedded (tr : list Event) : Prop :=
  match tr with
  | [] => True
  | EvGenerate f :: tr =>
      (isSequenceImage f = false →
         cumulativeCount f = size_wrap (Z.of_nat (length (snap_frames tr))))
      ∧ snaps_embedded tr
  | _ :: tr => snaps_embedded tr
  end.

Definition snaps_track (s : State) : Prop :=
  snaps_embedded (trace s) ∧
  snapCounter_ s = size_wrap (Z.of_nat (length (snap_frames (trace s)))).

(** A frame whose buffer has the size of the image. *)
Definition frame_sized (env : Environment) (f : Frame) : Prop :=
  length (bytes f) = Z.to_nat (GetImageBufferSize env).

(** A delivery that announces the image geometry and hands over a buffer
    of [n] bytes. *)
Definition insert_carries (env : Environment) (n : nat) (e : Event) : Prop :=
  match e with
  | EvInsertImage f w h b _ =>
      w = GetImageWidth ∧ h = GetImageHeight ∧
      b = GetImageBytesPerPixel env ∧
      length (bytes f) = n
  | _ => True
  end.

Definition insert_sized (env : Environment) : Event → Prop :=
  insert_carries env (Z.to_nat (GetImageBufferSize env)).

Definition pending_sized (env : Environment) (s : State) : Prop :=
  match worker s with
  | Some w =>
      match pc w with
      | AtInsert f | AtClear f | AtRetry f => frame_sized env f
      | _ => True
      end
  | None => True
  end.

Definition buffers_sized (env : Environment) (s : State) : Prop :=
  Forall (insert_sized env) (trace s) ∧ pending_sized env s.


(** A stopped camera has given up its future. *)
Definition idle_reset (s : State) : Prop :=
  stopSequence_ s = true → sequenceFuture_ s = Uninitialized.

(** A one-frame run against the failing host, with the frame generated and
    about to be offered. *)
Definition offered_frame : Frame :=
  (GenerateLogImage failing_host true 0 0
     (exec failing_host [ActStart true 1 false; ActWorker] fresh_camera)).1.

Definition offering_camera : State :=
  exec failing_host [ActStart true 1 false; ActWorker; ActWorker]
    fresh_camera.


End Camera.

(** ** The XY stage *)
Module XYStage.

Record State : Type := mkState {
  xPositionSteps_ : Setting.t Z;
  yPositionSteps_ : Setting.t Z;
  busy : bool;
  logger : SettingLogger.t
}.

(** [TesterXYStage::Initialize]: both positions start at 0 and have no
    bounds. *)
Definition Initialize (lg : SettingLogger.t) : State :=
  mkState (Setting.mkSetting "XPositionSteps" 0 None None false false)
          (Setting.mkSetting "YPositionSteps" 0 None None false false)
          false lg.

(** [TesterXYStage::SetPositionSteps], called by thread [tid].  [MarkBusy]
    (of the header) raises the device's busy flag. *)
Definition SetPositionSteps (tid : nat) (x y : Z) (st : State)
    : ResultCode * State :=
  let g := SettingLogger.Guard (logger st) in
  let busy := true in
  let '(err1, xs, g) := Setting.Set_ tid x (xPositionSteps_ st) g in
  let '(err2, ys, g) := Setting.Set_ tid y (yPositionSteps_ st) g in
  let st := mkState xs ys busy (SettingLogger.Release g) in
  if bool_decide (err1 ≠ DEVICE_OK) then (err1, st)
  else if bool_decide (err2 ≠ DEVICE_OK) then (err2, st)
  else (DEVICE_OK, st).

(** A stage whose X position is limited to [0, 10]. *)
Definition limited_stage : State :=
  mkState (Setting.mkSetting "XPositionSteps" 0 (Some 0) (Some 10) false false)
          (Setting.mkSetting "YPositionSteps" 0 None None false false)
          false SettingLogger.empty.

(** [TesterXYStage::GetPositionSteps]: both reads are made, without guard
    or busy mark, and the first error is returned. *)
Definition GetPositionSteps (tid : nat) (st : State)
    : ResultCode * (Z * Z) * State :=
  let '(err1, x, lg) := Setting.GetTo tid (xPositionSteps_ st) (logger st) in
  let '(err2, y, lg) := Setting.GetTo tid (yPositionSteps_ st) lg in
  let st := mkState (xPositionSteps_ st) (yPositionSteps_ st) (busy st) lg in
  if bool_decide (err1 ≠ DEVICE_OK) then (err1, (x, y), st)
  else if bool_decide (err2 ≠ DEVICE_OK) then (err2, (x, y), st)
  else (DEVICE_OK, (x, y), st).

(** A series of moves by one thread. *)
Definition moves (tid : nat) (ps : list (Z * Z)) (st : State) : State :=
  foldl (λ st p, (SetPositionSteps tid p.1 p.2 st).2) st ps.

End XYStage.

(** ** The camera's settings *)
Module CameraSettings.
Import SettingLogger Setting.

(** The two settings of [TesterCamera] and what its accessors touch. *)
Record State : Type := mkState {
  exposureSetting_ : Setting.t float;
  binningSetting_ : Setting.t Z;
  busy : bool;
  logger : SettingLogger.t
}.

(** [TesterCamera::Initialize]. *)
Definition Initialize (lg : SettingLogger.t) : State :=
  mkState exposure binning false lg.

(** [static_cast<int>] of a [long]. *)
Definition int_of_long (z : Z) : Z := (z + 2 ^ 31) mod 2 ^ 32 - 2 ^ 31.

(** [TesterCamera::GetBinning]. *)
Definition GetBinning (tid : nat) (st : State) : Z * State :=
  let '(v, lg) := Get tid (binningSetting_ st) (logger st) in
  (int_of_long v, mkState (exposureSetting_ st) (binningSetting_ st) (busy st) lg).

(** [TesterCamera::SetBinning]: guard, [MarkBusy], then the setting's
    [Set], whose code is returned. *)
Definition SetBinning (tid : nat) (binSize : Z) (st : State)
    : ResultCode * State :=
  let g := Guard (logger st) in
  let busy := true in
  let '(err, b, g) := Set_ tid binSize (binningSetting_ st) g in
  (err, mkState (exposureSetting_ st) b busy (Release g)).

(** [TesterCamera::SetExposure]: the same, but the function is [void] and
    the setting's code is dropped. *)
Definition SetExposure (tid : nat) (exposureMs : float) (st : State) : State :=
  let g := Guard (logger st) in
  let busy := true in
  let '(_, e, g) := Set_ tid exposureMs (exposureSetting_ st) g in
  mkState e (binningSetting_ st) busy (Release g).

(** [TesterCamera::GetExposure]. *)
Definition GetExposure (tid : nat) (st : State) : float * State :=
  let '(v, lg) := Get tid (exposureSetting_ st) (logger st) in
  (v, mkState (exposureSetting_ st) (binningSetting_ st) (busy st) lg).

(** A call on the camera's settings by thread [tid]. *)
Inductive Call : Type :=
  | CallGetBinning (tid : nat)
  | CallSetBinning (tid : nat) (binSize : Z)
  | CallSetExposure (tid : nat) (exposureMs : float)
  | CallGetExposure (tid : nat).

Definition do_call (st : State) (c : Call) : State :=
  match c with
  | CallGetBinning tid => (GetBinning tid st).2
  | CallSetBinning tid b => (SetBinning tid b st).2
  | CallSetExposure tid v => SetExposure tid v st
  | CallGetExposure tid => (GetExposure tid st).2
  end.

Definition run_calls (cs : list Call) (st : State) : State :=
  foldl do_call st cs.

(** The bounds test of the exposure setting. *)
Definition exposure_rejects (v : float) : bool :=
  PrimFloat.ltb v 0x1.999999999999ap-4%float || PrimFloat.ltb 1000.0%float v.

(** What no call changes: the binning cell, and the bounds and the
    restriction of the exposure cell. *)
Definition shape_kept (st : State) : Prop :=
  binningSetting_ st = binning ∧
  Setting.min (exposureSetting_ st) = Setting.min exposure ∧
  Setting.max (exposureSetting_ st) = Setting.max exposure ∧
  preInitOnly (exposureSetting_ st) = false.

End CameraSettings.

(** ** Creating and detecting devices *)
Module Hub.

(** The device classes of the adapter. *)
Inductive DeviceClass : Type :=
  | TesterHub | TesterCamera | TesterShutter | TesterXYStage
  | TesterZStage | TesterAFStage | TesterAutofocus.

(** What [CreateDevice] hands back: an instance of a class, constructed
    with the name it was asked for. *)
Record Device : Type := mkDevice { class : DeviceClass; name : string }.

(** [StartsWith]: [s.substr(0, prefix.size()) == prefix]. *)
Definition StartsWith (prefix s : string) : bool :=
  String.eqb (String.substring 0 (String.length prefix) s) prefix.

(** [CreateDevice]; [None] is the null pointer, as argument and as result. *)
Definition CreateDevice (deviceName : option string) : option Device :=
  match deviceName with
  | None => None
  | Some name =>
      if String.eqb name "THub" then Some (mkDevice TesterHub name)
      else if StartsWith "TCamera" name then Some (mkDevice TesterCamera name)
      else if StartsWith "TShutter" name then Some (mkDevice TesterShutter name)
      else if StartsWith "TXYStage" name then Some (mkDevice TesterXYStage name)
      else if StartsWith "TZStage" name then Some (mkDevice TesterZStage name)
      else if StartsWith "TAFStage" name then Some (mkDevice TesterAFStage name)
      else if StartsWith "TAutofocus" name
           then Some (mkDevice TesterAutofocus name)
      else None
  end.

(** [TesterHub::DetectInstalledDevices]: the list of installed devices is
    cleared and the twelve peripherals are added. *)
Definition DetectInstalledDevices (installed : list Device)
    : ResultCode * list Device :=
  let installed := [] in
  (DEVICE_OK,
   installed ++
   [ mkDevice TesterCamera "TCamera-0"; mkDevice TesterCamera "TCamera-1";
     mkDevice TesterShutter "TShutter-0"; mkDevice TesterShutter "TShutter-1";
     mkDevice TesterXYStage "TXYStage-0"; mkDevice TesterXYStage "TXYStage-1";
     mkDevice TesterZStage "TZStage-0"; mkDevice TesterZStage "TZStage-1";
     mkDevice TesterAFStage "TAFStage-0"; mkDevice TesterAFStage "TAFStage-1";
     mkDevice TesterAutofocus "TAutofocus-0";
     mkDevice TesterAutofocus "TAutofocus-1" ]).

(** The name, or the beginning of the name, by which each class is
    created. *)
Definition class_prefix (c : DeviceClass) : string :=
  match c with
  | TesterHub => "THub"
  | TesterCamera => "TCamera"
  | TesterShutter => "TShutter"
  | TesterXYStage => "TXYStage"
  | TesterZStage => "TZStage"
  | TesterAFStage => "TAFStage"
  | TesterAutofocus => "TAutofocus"
  end.
End Hub.

(** * Proofs *)

(** ** The logger and the settings *)
Section SettingFacts.
Import SettingLogger Setting.

Lemma Release_Guard lg : Release (Guard lg) = lg.
Proof. by destruct lg. Qed.

Lemma size_wrap_small z : 0 ≤ z < SIZE_MODULUS → size_wrap z = z.
Proof. intros. unfold size_wrap. by apply Z.mod_small. Qed.

Lemma size_wrap_succ z : size_succ (size_wrap z) = size_wrap (z + 1).
Proof. unfold size_succ, size_wrap. by rewrite Zplus_mod_idemp_l. Qed.

Lemma size_succ_range z : 0 ≤ size_succ z < SIZE_MODULUS.
Proof. unfold size_succ, size_wrap. by apply Z.mod_pos_bound. Qed.

Lemma size_succ_add z i : size_wrap (size_succ z + i) = size_wrap (z + (1 + i)).
Proof.
  unfold size_succ, size_wrap. rewrite Zplus_mod_idemp_l. f_equal. lia.
Qed.


Lemma seqZ_strongly_sorted m n : StronglySorted Z.lt (seqZ m n).
Proof.
  destruct (decide (n ≤ 0)) as [Hn|Hn].
  { rewrite seqZ_nil by done. constructor. }
  rewrite <- (Z2Nat.id n) by lia.
  generalize (Z.to_nat n) as k. clear. intros k. revert m.
  induction k as [|k IH]; intros m.
  - constructor.
  - rewrite seqZ_cons by lia. constructor.
    + replace (Z.pred (Z.of_nat (S k))) with (Z.of_nat k) by lia. apply IH.
    + apply Forall_seqZ. lia.
Qed.
Lemma record_step k tid n txt lg :
  log_step lg (Release (record k tid n txt (Guard lg))).
Proof.
  right. eexists. split; [|by destruct lg]. done.
Qed.

Lemma Get_step {T} `{SettingValue T} tid (s : Setting.t T) lg :
  log_step lg (Get tid s lg).2.
Proof. apply record_step. Qed.

Lemma Set_step {T} `{SettingValue T} tid v (s : Setting.t T) lg :
  log_step lg (Set_ tid v s lg).2.
Proof.
  unfold Set_.
  destruct (preInitOnly s && initialized s); simpl.
  { left. apply Release_Guard. }
  destruct (below_min s v || above_max s v); simpl.
  { left. apply Release_Guard. }
  apply record_step.
Qed.

Lemma do_call_step c w : log_step (log w) (log (do_call c w)).
Proof.
  destruct c; simpl; destruct (settings w !! key) as [[]|] eqn:E; simpl;
    try (by left); try apply Get_step; try apply record_step.
  all: match goal with |- context [Set_ ?t ?v ?s ?l] =>
         pose proof (Set_step t v s l) as Hs;
         destruct (Set_ t v s l) as [[? ?] ?] end; exact Hs.
Qed.

Lemma run_calls_snoc cs c w :
  run_calls (cs ++ [c]) w = do_call c (run_calls cs w).
Proof. unfold run_calls. by rewrite foldl_app. Qed.

Lemma run_calls_log cs w :
  entries (log w) = [] →
  0 ≤ counter (log w) < SIZE_MODULUS →
  ∃ k : nat, (k ≤ length cs)%nat ∧
    globalSequenceNumber <$> entries (log (run_calls cs w))
      = size_wrap <$> seqZ (counter (log w)) (Z.of_nat k) ∧
    counter (log (run_calls cs w)) = size_wrap (counter (log w) + Z.of_nat k).
Proof.
  intros He Hc. induction cs as [|c cs IH] using rev_ind.
  - exists 0%nat. simpl. rewrite He. split; [done|].
    split; [done|]. rewrite Z.add_0_r. by rewrite size_wrap_small.
  - destruct IH as (k & Hk & Hs & Hn). rewrite run_calls_snoc.
    destruct (do_call_step c (run_calls cs w)) as [-> | (e & He1 & ->)].
    + exists k. rewrite length_app. simpl. split; [lia|done].
    + exists (S k). rewrite length_app. simpl. split; [lia|].
      rewrite fmap_app, Hs. simpl. rewrite He1, Hn, seqZ_S, fmap_app. simpl.
      split; [done|]. rewrite size_wrap_succ. f_equal. lia.
Qed.

(** C1: the sequence numbers of the recorded entries, in recorded order,
    are consecutive from the counter's starting value (modulo the width of
    the counter); as long as the 64-bit counter does not wrap they are
    strictly increasing, without duplicates and without gaps, whatever the
    calls and whichever threads make them. *)
Theorem sequence_numbers_consecutive (calls : list Call) (w : World) :
  entries (log w) = [] →
  0 ≤ counter (log w) < SIZE_MODULUS →
  let c0 := counter (log w) in
  let ns := globalSequenceNumber <$> entries (log (run_calls calls w)) in
  (length ns ≤ length calls)%nat ∧
  ns = size_wrap <$> seqZ c0 (Z.of_nat (length ns)) ∧
  (c0 + Z.of_nat (length calls) ≤ SIZE_MODULUS →
     ns = seqZ c0 (Z.of_nat (length ns)) ∧ StronglySorted Z.lt ns ∧ NoDup ns).
Proof.
  intros He Hc c0 ns.
  destruct (run_calls_log calls w He Hc) as (k & Hk & Hs & _).
  fold ns c0 in Hs.
  assert (Hlen : length ns = k).
  { rewrite Hs, length_fmap, length_seqZ. lia. }
  rewrite Hlen. split; [done|]. split; [done|].
  intros Hb.
  assert (Hid : ns = seqZ c0 (Z.of_nat k)).
  { rewrite Hs. rewrite <- (list_fmap_id (seqZ c0 (Z.of_nat k))) at 2.
    apply Forall_fmap_ext_1, Forall_seqZ. intros z Hz.
    apply size_wrap_small. unfold c0, id in *. lia. }
  split; [done|]. rewrite Hid.
  split; [apply seqZ_strongly_sorted | apply NoDup_seqZ].
Qed.

Lemma sequence_numbers_consecutive_witness :
  let ns := globalSequenceNumber
              <$> entries (log (run_calls camera_calls camera_world)) in
  (length ns ≤ 4)%nat ∧
  ns = size_wrap <$> seqZ 0 (Z.of_nat (length ns)) ∧
  (0 + 4 ≤ SIZE_MODULUS →
     ns = seqZ 0 (Z.of_nat (length ns)) ∧ StronglySorted Z.lt ns ∧ NoDup ns).
Proof.
  apply (sequence_numbers_consecutive camera_calls camera_world);
    [reflexivity | unfold SIZE_MODULUS; simpl; lia].
Defined.

Import SettingLogger.

Lemma write_bytes_spec src : ∀ buf off limit,
  (off ≤ limit)%nat →
  let r := write_bytes buf off limit src in
  r.2 = Nat.min (off + length src) limit ∧
  length r.1 = length buf ∧
  (∀ i, (i < off ∨ limit ≤ i)%nat → r.1 !! i = buf !! i) ∧
  (∀ i, (off ≤ i < r.2)%nat → (i < length buf)%nat →
        r.1 !! i = src !! (i - off)%nat).
Proof.
  induction src as [|b src IH]; intros buf off limit Hle; simpl.
  - split_and!; intros; try done; lia.
  - case_decide as Hlt; simpl.
    + destruct (IH (<[off:=b]> buf) (S off) limit ltac:(lia))
        as (Hn & Hl & Hout & Hin).
      rewrite length_insert in Hl, Hin.
      split_and!.
      * lia.
      * done.
      * intros i Hi. rewrite Hout by lia.
        apply list_lookup_insert_ne. lia.
      * intros i Hi Hb. destruct (decide (i = off)) as [->|Hne].
        -- rewrite Hout by lia. rewrite Nat.sub_diag. simpl.
           by apply list_lookup_insert_eq.
        -- rewrite Hin by lia.
           replace (i - off)%nat with (S (i - S off)) by lia. done.
    + split_and!; intros; try done; lia.
Qed.

(** C9: when [bufferSize] is smaller than the encoding, [PackAndReset]
    reports [InsufficientCapacity], writes exactly the first [bufferSize]
    bytes of the encoding, and leaves every byte at an offset at or beyond
    [bufferSize] as it was. *)
Theorem pack_truncates_within_buffer (buf : list byte) (bufferSize : nat) (deviceName : string)
    (isSequenceImage : bool) (cumulativeCount localCount : Z) (lg : t) :
  let enc := encode deviceName isSequenceImage cumulativeCount localCount
               (entries lg) in
  (bufferSize < length enc)%nat →
  let r := PackAndReset buf bufferSize deviceName isSequenceImage
             cumulativeCount localCount lg in
  status r = InsufficientCapacity ∧
  bytesWritten r = bufferSize ∧
  length (buffer r) = length buf ∧
  (∀ i, (bufferSize ≤ i)%nat → buffer r !! i = buf !! i) ∧
  (∀ i, (i < bufferSize)%nat → (i < length buf)%nat →
        buffer r !! i = enc !! i).
Proof.
  intros enc Hsmall r. subst r. unfold PackAndReset. fold enc.
  generalize dependent enc. intros enc Hsmall.
  destruct (write_bytes_spec enc buf 0 bufferSize ltac:(lia))
    as (Hn & Hl & Hout & Hin).
  destruct (write_bytes buf 0 bufferSize enc) as [buf' n].
  cbn [fst snd status bytesWritten buffer] in *.
  rewrite decide_True by done.
  split_and!.
  - done.
  - lia.
  - done.
  - intros i Hi. apply Hout. lia.
  - intros i Hi Hb. rewrite Hin by lia. f_equal. lia.
Qed.

Lemma pack_truncates_within_buffer_witness :
  let enc := encode "TCamera-0" true 0 0 [] in
  let r := PackAndReset (replicate 64 x00) (length enc - 1) "TCamera-0" true
             0 0 SettingLogger.empty in
  status r = InsufficientCapacity ∧
  bytesWritten r = (length enc - 1)%nat ∧
  length (buffer r) = 64%nat ∧
  (∀ i, (length enc - 1 ≤ i)%nat → buffer r !! i = replicate 64 x00 !! i) ∧
  (∀ i, (i < length enc - 1)%nat → (i < 64)%nat → buffer r !! i = enc !! i).
Proof.
  apply (pack_truncates_within_buffer (replicate 64 x00)
           (length (encode "TCamera-0" true 0 0 []) - 1) "TCamera-0" true
           0 0 SettingLogger.empty).
  vm_compute. lia.
Defined.


Lemma exposure_New :
  exposure = New "Exposure" 100.0%float true 0x1.999999999999ap-4%float
               1000.0%float.
Proof. reflexivity. Qed.

Lemma binning_New : binning = New "Binning" 1 true 1 1.
Proof. reflexivity. Qed.

Lemma access_keeps_bounds {T : Type} `{SettingValue T} (a : Access T) sl :
  Setting.min (access sl a).1 = Setting.min sl.1 ∧
  Setting.max (access sl a).1 = Setting.max sl.1 ∧
  preInitOnly (access sl a).1 = preInitOnly sl.1.
Proof.
  destruct a as [tid|tid v]; simpl; [done|].
  unfold Set_.
  destruct (preInitOnly sl.1 && initialized sl.1); [done|].
  by destruct (below_min sl.1 v || above_max sl.1 v).
Qed.

Lemma accesses_keep_bounds {T : Type} `{SettingValue T} (l : list (Access T)) :
  ∀ sl,
  Setting.min (accesses l sl).1 = Setting.min sl.1 ∧
  Setting.max (accesses l sl).1 = Setting.max sl.1 ∧
  preInitOnly (accesses l sl).1 = preInitOnly sl.1.
Proof.
  induction l as [|a l IH]; intros sl; [done|].
  unfold accesses in *. simpl.
  destruct (IH (access sl a)) as (-> & -> & ->).
  apply access_keeps_bounds.
Qed.

(** C2: a setting created with bounds ([New] with [hasMinMax] set, as
    [Initialize] creates exposure and binning) answers a value below its
    minimum or above its maximum with [OutOfRange] at any point of its
    life, that is after any reads and writes by any threads: the stored
    value is unchanged (a later read returns what an earlier one would
    have) and no entry is recorded. *)
Theorem out_of_range_rejected {T : Type} `{SettingValue T} (name : string)
    (initialValue lo hi : T) (l : list (Access T)) (lg : SettingLogger.t)
    (tid : nat) (v : T) :
  let sl := accesses l (New name initialValue true lo hi, lg) in
  value_ltb v lo = true ∨ value_ltb hi v = true →
  Set_ tid v sl.1 sl.2 = (OutOfRange, sl.1, sl.2) ∧
  access sl (AccessSet tid v) = sl ∧
  ∀ tid', (Get tid' (access sl (AccessSet tid v)).1 lg).1 = value sl.1.
Proof.
  intros sl Hout.
  destruct (accesses_keep_bounds l (New name initialValue true lo hi, lg))
    as (Hlo & Hhi & Hpre).
  fold sl in Hlo, Hhi, Hpre. simpl in Hlo, Hhi, Hpre.
  assert (HS : Set_ tid v sl.1 sl.2 = (OutOfRange, sl.1, sl.2)).
  { unfold Set_, below_min, above_max.
    rewrite Hlo, Hhi, Hpre, Release_Guard. simpl.
    by destruct Hout as [-> | ->]; rewrite ?orb_true_r. }
  assert (HA : access sl (AccessSet tid v) = sl).
  { simpl. rewrite HS. by destruct sl. }
  split_and!; [done|done|]. intros tid'. by rewrite HA.
Qed.

Lemma out_of_range_rejected_witness :
  let sl := accesses [AccessSet 1%nat 50.0%float; AccessGet 2%nat]
              (New "Exposure" 100.0%float true 0x1.999999999999ap-4%float
                 1000.0%float, SettingLogger.empty) in
  Set_ 7%nat 2000.0%float sl.1 sl.2 = (OutOfRange, sl.1, sl.2) ∧
  access sl (AccessSet 7%nat 2000.0%float) = sl ∧
  ∀ tid', (Get tid' (access sl (AccessSet 7%nat 2000.0%float)).1
             SettingLogger.empty).1 = value sl.1.
Proof.
  apply (out_of_range_rejected "Exposure" 100.0%float
           0x1.999999999999ap-4%float 1000.0%float
           [AccessSet 1%nat 50.0%float; AccessGet 2%nat] SettingLogger.empty
           7%nat 2000.0%float).
  right. vm_compute. reflexivity.
Defined.

Lemma Z_of_byte_of_Z z : Z_of_byte (byte_of_Z z) = z mod 256.
Proof.
  unfold Z_of_byte, byte_of_Z.
  pose proof (Z.mod_pos_bound z 256 ltac:(lia)) as Hb.
  destruct (Byte.of_N (Z.to_N (z mod 256))) as [b|] eqn:E.
  - simpl. apply Byte.to_of_N in E. rewrite E. lia.
  - apply Byte.of_N_None_iff in E. lia.
Qed.

Lemma le_decode_u64_aux (k : nat) : ∀ z m,
  le_decode ((λ i, byte_of_Z (Z.shiftr z (8 * i))) <$> seqZ m (Z.of_nat k))
    = (Z.shiftr z (8 * m)) mod 2 ^ (8 * Z.of_nat k).
Proof.
  induction k as [|k IH]; intros z m.
  - simpl. by rewrite Z.mod_1_r.
  - rewrite seqZ_cons by lia. simpl fmap. cbn [le_decode].
    replace (Z.pred (Z.of_nat (S k))) with (Z.of_nat k) by lia.
    rewrite IH, Z_of_byte_of_Z.
    replace (8 * Z.of_nat (S k)) with (8 + 8 * Z.of_nat k) by lia.
    rewrite Z.pow_add_r by lia.
    replace (8 * Z.succ m) with (8 * m + 8) by lia.
    rewrite <- Z.shiftr_shiftr by lia.
    rewrite (Z.shiftr_div_pow2 (Z.shiftr z (8 * m)) 8) by lia.
    change (2 ^ 8) with 256.
    generalize (Z.shiftr z (8 * m)) as a. intros a.
    rewrite Z.rem_mul_r by lia. done.
Qed.

Lemma le_decode_u64 z : le_decode (u64_le z) = size_wrap z.
Proof.
  etrans; [exact (le_decode_u64_aux 8 z 0)|].
  by rewrite Z.shiftr_0_r.
Qed.

Lemma length_u64_le z : length (u64_le z) = 8%nat.
Proof. done. Qed.

Lemma decode_encode_header nm b c l tail :
  Z.of_nat (length (text_bytes nm)) < SIZE_MODULUS →
  decode_header (encode_header nm b c l ++ tail)
    = Some (nm, b, size_wrap c, size_wrap l).
Proof.
  intros Hnm. unfold decode_header, encode_header, field.
  set (tb := text_bytes nm).
  rewrite <- !app_assoc.
  rewrite (take_app_length' (u64_le _)) by done.
  rewrite le_decode_u64, size_wrap_small.
  2:{ subst tb. lia. }
  rewrite Nat2Z.id.
  rewrite (drop_app_add' (u64_le _)) by done.
  rewrite drop_app_length.
  rewrite (drop_app_length' (u64_le _)) by done.
  rewrite take_app_length.
  cbn [app].
  rewrite decide_True.
  2:{ rewrite !length_app, !length_u64_le. lia. }
  rewrite (take_app_length' (u64_le c)) by done.
  rewrite (drop_app_length' (u64_le c)) by done.
  rewrite (take_app_length' (u64_le l)) by done.
  rewrite !le_decode_u64.
  unfold tb, text_bytes. rewrite String.string_of_list_byte_of_string.
  by destruct b.
Qed.

Lemma encode_split nm b c l es :
  encode nm b c l es = encode_header nm b c l ++ field (text_bytes (digest es)).
Proof. unfold encode, encode_header. by rewrite <- !app_assoc. Qed.

Lemma length_encode_header nm b c l :
  length (encode_header nm b c l) = (25 + length (text_bytes nm))%nat.
Proof.
  unfold encode_header, field. rewrite !length_app, !length_u64_le. simpl. lia.
Qed.

Lemma pack_header buf n nm b c l lg :
  length buf = n →
  (length (encode_header nm b c l) ≤ n)%nat →
  ∃ tail, buffer (PackAndReset buf n nm b c l lg)
            = encode_header nm b c l ++ tail.
Proof.
  intros Hbuf Hfit. unfold PackAndReset.
  rewrite encode_split.
  set (hd := encode_header nm b c l) in *.
  set (enc := hd ++ _).
  destruct (write_bytes_spec enc buf 0 n ltac:(lia)) as (Hn & Hl & _ & Hin).
  destruct (write_bytes buf 0 n enc) as [buf' m].
  cbn [fst snd buffer] in *.
  exists (drop (length hd) buf').
  rewrite <- (take_drop (length hd) buf') at 1. f_equal.
  apply list_eq. intros i.
  destruct (decide (i < length hd)%nat) as [Hi|Hi].
  - rewrite lookup_take_lt by done.
    assert (Hlen : (length hd ≤ length enc)%nat)
      by (unfold enc; rewrite length_app; lia).
    rewrite Hin by lia. rewrite Nat.sub_0_r. unfold enc.
    by rewrite lookup_app_l.
  - rewrite lookup_take_ge by lia. symmetry. apply lookup_ge_None. lia.
Qed.

Lemma pack_decodes n nm b c l lg :
  (25 + length (text_bytes nm) ≤ n)%nat →
  Z.of_nat n < SIZE_MODULUS →
  decode_header (buffer (PackAndReset (replicate n x00) n nm b c l lg))
    = Some (nm, b, size_wrap c, size_wrap l).
Proof.
  intros Hfit Hn.
  destruct (pack_header (replicate n x00) n nm b c l lg) as [tail ->].
  - apply length_replicate.
  - rewrite length_encode_header. done.
  - apply decode_encode_header. lia.
Qed.

Lemma PackAndReset_length buf n dev b c l lg :
  length (buffer (PackAndReset buf n dev b c l lg)) = length buf.
Proof.
  unfold PackAndReset.
  pose proof (write_bytes_spec (encode dev b c l (entries lg)) buf 0 n
                ltac:(lia)) as (_ & Hlen & _).
  by destruct (write_bytes buf 0 n _).
Qed.
End SettingFacts.

(** ** The camera *)
Section CameraFacts.
Import Camera.
#[local] Opaque SettingLogger.PackAndReset.

Context (env : Environment).

Ltac step_cases s :=
  unfold worker_step;
  destruct s as [nm sc cc si st fu [[fi co so fr []]|] lg tr];
  cbn [worker pc finite count stopOnOverflow frame stopSequence_
       finish set_worker set_sequenceFuture set_cumulative emit InsertImage
       GenerateLogImage set_logger at_pc next_frame
       name snapCounter_ cumulativeSequenceCounter_ snapImage_
       sequenceFuture_ logger trace fst snd];
  repeat case_match; simplify_eq/=.

Ltac fields :=
  cbn [worker stopSequence_ sequenceFuture_ trace logger name snapCounter_
       cumulativeSequenceCounter_ snapImage_ set_stopSequence
       set_sequenceFuture set_worker set_logger set_snap set_cumulative
       emit finish AcqFinished fst snd] in *.

Lemma worker_step_stopSequence s :
  stopSequence_ (worker_step env s) = stopSequence_ s.
Proof. step_cases s; done. Qed.

Lemma worker_step_idle s : worker s = None → worker_step env s = s.
Proof. unfold worker_step. by intros ->. Qed.

Lemma worker_step_count p s :
  quiet p →
  count_events p (trace (worker_step env s)) = count_events p (trace s).
Proof.
  intros (Hg & Hi & Hc).
  step_cases s; rewrite ?Hg, ?Hi, ?Hc; done.
Qed.

Lemma run_worker_stopSequence n s :
  stopSequence_ (run_worker n env s) = stopSequence_ s.
Proof.
  revert s. induction n as [|n IH]; intros s; simpl; [done|].
  destruct (worker s); [|done]. by rewrite IH, worker_step_stopSequence.
Qed.

Lemma run_worker_count p n s :
  quiet p →
  count_events p (trace (run_worker n env s)) = count_events p (trace s).
Proof.
  intros Hq. revert s. induction n as [|n IH]; intros s; simpl; [done|].
  destruct (worker s); [|done]. by rewrite IH, worker_step_count.
Qed.

Lemma run_worker_idle n s : worker s = None → run_worker n env s = s.
Proof. destruct n; simpl; [done|]. by intros ->. Qed.

Lemma run_worker_S n s w :
  worker s = Some w →
  run_worker (S n) env s = run_worker n env (worker_step env s).
Proof. simpl. by intros ->. Qed.

Lemma run_worker_add n m s :
  run_worker (n + m) env s = run_worker m env (run_worker n env s).
Proof.
  revert s. induction n as [|n IH]; intros s; simpl; [done|].
  destruct (worker s) eqn:E; [apply IH|]. by rewrite run_worker_idle.
Qed.

Lemma worker_step_consistent s : consistent s → consistent (worker_step env s).
Proof. unfold consistent. step_cases s; done. Qed.

Lemma run_worker_consistent n s :
  consistent s → consistent (run_worker n env s).
Proof.
  revert s. induction n as [|n IH]; intros s H; simpl; [done|].
  destruct (worker s); [|done]. by apply IH, worker_step_consistent.
Qed.

(** With the stop flag set, the capture thread ends within [AWAIT_STEPS]
    steps; it returns, unless it was already about to throw. *)
Lemma await_step s w :
  stopSequence_ s = true →
  worker s = Some w →
  let s' := worker_step env s in
  (worker s' = None ∧ sequenceFuture_ s' = Ready (outcome_of (pc w))) ∨
  (∃ w', worker s' = Some w' ∧ (distance (pc w') < distance (pc w))%nat ∧
         outcome_of (pc w') = Returned ∧ outcome_of (pc w) = Returned).
Proof.
  intros Hs Hw. revert Hs Hw. step_cases s; intros; simplify_eq/=;
    try (by left); right; eexists; (split; [done|simpl; split; [lia|done]]).
Qed.

Lemma await_within n : ∀ s w,
  stopSequence_ s = true →
  worker s = Some w →
  (distance (pc w) ≤ n)%nat →
  worker (run_worker n env s) = None ∧
  sequenceFuture_ (run_worker n env s) = Ready (outcome_of (pc w)).
Proof.
  induction n as [|n IH]; intros s w Hs Hw Hd.
  - destruct (pc w); simpl in Hd; lia.
  - simpl. rewrite Hw.
    destruct (await_step s w Hs Hw) as [[H1 H2]|(w' & Hw' & Hlt & Ho' & Ho)].
    + by rewrite run_worker_idle.
    + rewrite Ho, <- Ho'.
      apply (IH _ w'); [by rewrite worker_step_stopSequence|done|lia].
Qed.

Lemma await_completes s w :
  stopSequence_ s = true →
  worker s = Some w →
  worker (run_worker AWAIT_STEPS env s) = None ∧
  sequenceFuture_ (run_worker AWAIT_STEPS env s) = Ready (outcome_of (pc w)).
Proof.
  intros Hs Hw. apply (await_within _ s w Hs Hw).
  unfold AWAIT_STEPS. destruct (pc w); simpl; lia.
Qed.

Lemma worker_step_trace_at_throw s w err :
  worker s = Some w → pc w = AtThrow err →
  worker_step env s = finish (Threw err) s.
Proof. intros Hw Hpc. unfold worker_step. by rewrite Hw, Hpc. Qed.

Lemma exec_snoc sched a s :
  exec env (sched ++ [a]) s = step env (exec env sched s) a.
Proof. unfold exec. by rewrite foldl_app. Qed.

Lemma exec_invariant (P : State → Prop) sched s :
  P s → (∀ s a, P s → P (step env s a)) → P (exec env sched s).
Proof.
  intros H0 Hstep. induction sched as [|a sched IH] using rev_ind; [done|].
  rewrite exec_snoc. by apply Hstep.
Qed.


(** *** Stop, case by case *)
Lemma stop_when_stopped s :
  stopSequence_ s = true → StopSequenceAcquisition env s = Some (DEVICE_OK, s).
Proof. unfold StopSequenceAcquisition. by intros ->. Qed.

Lemma stop_after_error s code :
  stopSequence_ s = false →
  worker s = None →
  sequenceFuture_ s = Ready (Threw code) →
  StopSequenceAcquisition env s
    = Some (code, set_sequenceFuture Uninitialized (set_stopSequence true s)).
Proof.
  intros Hs Hw Hf. unfold StopSequenceAcquisition. rewrite Hs.
  cbn [sequenceFuture_ set_stopSequence]. rewrite Hf.
  rewrite run_worker_idle by done. cbn [sequenceFuture_ set_stopSequence].
  by rewrite Hf.
Qed.

Lemma stop_with_error s code :
  stopSequence_ s = false →
  consistent s →
  pending_error s = Some code →
  ∃ s1, StopSequenceAcquisition env s = Some (code, s1) ∧
        stopSequence_ s1 = true ∧ worker s1 = None ∧
        sequenceFuture_ s1 = Uninitialized ∧ trace s1 = trace s.
Proof.
  intros Hs Hc He. unfold pending_error, consistent in *.
  destruct (sequenceFuture_ s) as [| |[|code']] eqn:Hf;
    destruct (worker s) as [w|] eqn:Hw; try done.
  - destruct (pc w) eqn:Hpc; try done. simpl in He. simplify_eq.
    unfold StopSequenceAcquisition. rewrite Hs. fields. rewrite Hf.
    unfold AWAIT_STEPS.
    rewrite (run_worker_S _ _ w) by done.
    rewrite (worker_step_trace_at_throw _ w code) by done.
    rewrite run_worker_idle by done. fields.
    eexists. split; [done|]. by fields.
  - simplify_eq. rewrite (stop_after_error s code) by done.
    eexists. split; [done|]. fields. by rewrite Hw.
Qed.

Lemma stop_without_error s :
  stopSequence_ s = false →
  consistent s →
  pending_error s = None →
  ∃ s1, StopSequenceAcquisition env s = Some (AcqFinished env s1) ∧
        stopSequence_ s1 = true ∧ worker s1 = None ∧
        sequenceFuture_ s1 = Uninitialized ∧
        (∀ p, quiet p → count_events p (trace s1) = count_events p (trace s)).
Proof.
  intros Hs Hc Hne. unfold StopSequenceAcquisition. rewrite Hs.
  unfold consistent, pending_error in *.
  cbn [sequenceFuture_ set_stopSequence].
  destruct (sequenceFuture_ s) as [| |[|code]] eqn:Hf.
  - destruct (worker s) eqn:Hw; [done|].
    eexists. split; [done|]. by fields.
  - destruct (worker s) as [w|] eqn:Hw; [|done].
    destruct (await_completes (set_stopSequence true s) w) as [H1 H2];
      [done|done|].
    rewrite H2.
    assert (Ho : outcome_of (pc w) = Returned) by (by destruct (pc w)).
    rewrite Ho. eexists. split; [done|]. fields.
    rewrite run_worker_stopSequence. split_and!; try done.
    intros p Hp. by rewrite run_worker_count.
  - destruct (worker s) eqn:Hw; [done|].
    rewrite run_worker_idle by done. fields.
    rewrite Hf. eexists. split; [done|]. by fields.
  - done.
Qed.

Lemma well_formed_fresh nm lg : well_formed (TesterCamera nm lg).
Proof. by split. Qed.

Lemma stop_total s :
  well_formed s → ∃ r s', StopSequenceAcquisition env s = Some (r, s')
                          ∧ well_formed s'.
Proof.
  intros [Hc Hi]. destruct (stopSequence_ s) eqn:Hs.
  { exists DEVICE_OK, s. rewrite stop_when_stopped by done.
    split; [done|]. split; [done|]. intros _. by apply Hi. }
  destruct (pending_error s) as [code|] eqn:He.
  - destruct (stop_with_error s code Hs Hc He) as (s1 & -> & H1 & H2 & H3 & _).
    eexists _, _; split; [done|]. unfold well_formed, consistent.
    by rewrite H2, H3.
  - destruct (stop_without_error s Hs Hc He) as (s1 & -> & H1 & H2 & H3 & _).
    eexists _, _; split; [done|]. unfold well_formed, consistent. fields.
    by rewrite H2, H3.
Qed.

Lemma step_well_formed s a : well_formed s → well_formed (step env s a).
Proof.
  intros Hwf. destruct a as [fi co so| | |]; simpl.
  - unfold StartSequenceAcquisitionImpl.
    destruct (stopSequence_ s); simpl; [|done]. by split.
  - destruct (stop_total s Hwf) as (r & s' & -> & H'). done.
  - destruct Hwf as [Hc Hi]. unfold SnapImage, GenerateLogImage.
    unfold well_formed, consistent in *. by fields.
  - destruct Hwf as [Hc Hi]. split; [by apply worker_step_consistent|].
    rewrite worker_step_stopSequence. intros Hs.
    rewrite worker_step_idle; auto.
Qed.

Lemma exec_well_formed sched s : well_formed s → well_formed (exec env sched s).
Proof. intros H. apply exec_invariant; [done|]. apply step_well_formed. Qed.

Lemma quiet_AcqFinished : quiet is_AcqFinished.
Proof. by split_and!. Qed.

Lemma quiet_PrepareForAcq : quiet is_PrepareForAcq.
Proof. by split_and!. Qed.

Lemma stop_effect s r s' :
  stopSequence_ s = false →
  StopSequenceAcquisition env s = Some (r, s') →
  stopSequence_ s' = true ∧
  count_events is_PrepareForAcq (trace s')
    = count_events is_PrepareForAcq (trace s) ∧
  (count_events is_AcqFinished (trace s')
    ≤ S (count_events is_AcqFinished (trace s)))%nat.
Proof.
  intros Hs. unfold StopSequenceAcquisition. rewrite Hs.
  pose proof (run_worker_stopSequence AWAIT_STEPS (set_stopSequence true s))
    as Hflag.
  pose proof (run_worker_count is_PrepareForAcq AWAIT_STEPS
                (set_stopSequence true s) quiet_PrepareForAcq) as Hp.
  pose proof (run_worker_count is_AcqFinished AWAIT_STEPS
                (set_stopSequence true s) quiet_AcqFinished) as Ha.
  remember (run_worker AWAIT_STEPS env (set_stopSequence true s)) as s1 eqn:E.
  clear E. fields.
  destruct (sequenceFuture_ s) as [| |[|code]];
  [|destruct (sequenceFuture_ s1) as [| |[|code']]..];
    unfold AcqFinished; intros; simplify_eq; fields; split_and!;
    try done; simpl; lia.
Qed.







Ltac worker_fields :=
  cbn [worker pc finite count stopOnOverflow frame stopSequence_
       finish set_worker set_sequenceFuture set_cumulative emit InsertImage
       GenerateLogImage set_logger at_pc next_frame
       name snapCounter_ cumulativeSequenceCounter_ snapImage_
       sequenceFuture_ logger trace fst snd].

Ltac one_step :=
  erewrite run_worker_S by reflexivity; unfold worker_step at 1;
  worker_fields.

Lemma iteration s w :
  worker s = Some w → pc w = AtLoop → finite w = true →
  frame w < count w → stopSequence_ s = false →
  delivers env (stopOnOverflow w) →
  ∃ n f s', (n ≤ 6)%nat ∧ run_worker n env s = s' ∧
    worker s' = Some (next_frame w) ∧ stopSequence_ s' = false ∧
    sequenceFuture_ s' = sequenceFuture_ s ∧
    cumulativeSequenceCounter_ s' = size_succ (cumulativeSequenceCounter_ s) ∧
    sequence_frames (trace s') = f :: sequence_frames (trace s) ∧
    counts f = (cumulativeSequenceCounter_ s, size_wrap (frame w)).
Proof.
  destruct s as [nm sc cc si st fu wk lg tr], w as [fi co so fr p].
  cbn [worker pc finite frame count stopSequence_ stopOnOverflow].
  intros -> -> -> Hlt -> Hdel.
  pose (f := (GenerateLogImage env true cc (size_wrap fr)
                (mkState nm sc cc si false fu
                   (Some (mkWorker true co so fr AtGenerate)) lg tr)).1).
  assert (Hcond : negb (negb true || (fr <? co)) = false).
  { simpl. apply negb_false_iff, Z.ltb_lt. done. }
  destruct (Hdel (EvGenerate f :: tr) f) as [Hok | (Hso & Hov & Hre)];
    subst f; cbn [GenerateLogImage fst name logger] in *.
  - exists 4%nat. eexists _, _. split; [lia|]. split.
    { one_step. rewrite Hcond. one_step. one_step. rewrite Hok.
      rewrite andb_false_r. one_step.
      rewrite bool_decide_eq_false_2 by (intros H; by apply H).
      cbn [run_worker]. reflexivity. }
    worker_fields. cbn [sequence_frames isSequenceImage].
    split_and!; reflexivity.
  - exists 6%nat. eexists _, _. split; [lia|]. simpl in Hso. subst so. split.
    { one_step. rewrite Hcond. one_step. one_step. rewrite Hov.
      rewrite bool_decide_eq_true_2 by reflexivity. cbn [negb andb].
      one_step. one_step. rewrite Hre. one_step.
      rewrite bool_decide_eq_false_2 by (intros H; by apply H).
      cbn [run_worker]. reflexivity. }
    worker_fields. cbn [sequence_frames isSequenceImage].
    split_and!; reflexivity.
Qed.

Lemma finite_run_completes k : ∀ fuel s w,
  (6 * k + 1 ≤ fuel)%nat →
  worker s = Some w → pc w = AtLoop → finite w = true →
  count w = frame w + Z.of_nat k →
  stopSequence_ s = false →
  delivers env (stopOnOverflow w) →
  0 ≤ cumulativeSequenceCounter_ s < SIZE_MODULUS →
  ∃ s', run_worker fuel env s = s' ∧
    worker s' = None ∧ sequenceFuture_ s' = Ready Returned ∧
    stopSequence_ s' = false ∧
    counts <$> reverse (sequence_frames (trace s'))
      = (counts <$> reverse (sequence_frames (trace s)))
        ++ ((λ i, (size_wrap (cumulativeSequenceCounter_ s + i),
                   size_wrap (frame w + i))) <$> seqZ 0 (Z.of_nat k)).
Proof.
  induction k as [|k IH]; intros fuel s w Hfuel Hw Hpc Hfin Hcount Hs Hdel Hcc.
  - destruct fuel as [|fuel]; [lia|]. eexists. split; [done|].
    rewrite (run_worker_S _ _ _ Hw).
    assert (Hstep : worker_step env s = finish Returned s).
    { unfold worker_step. rewrite Hw, Hpc, Hfin.
      replace (frame w <? count w) with false; [done|].
      symmetry. apply Z.ltb_ge. lia. }
    rewrite Hstep, run_worker_idle by done. fields.
    rewrite Hs, app_nil_r. done.
  - destruct (iteration s w Hw Hpc Hfin ltac:(lia) Hs Hdel)
      as (n & f & s1 & Hn & Hrun & Hw1 & Hs1 & Hf1 & Hcc1 & Hfr1 & Hcnt).
    replace fuel with (n + (fuel - n))%nat by lia.
    rewrite run_worker_add, Hrun.
    destruct (IH (fuel - n)%nat s1 (next_frame w)) as (s' & Hrun' & H1 & H2 & H3 & H4);
      try done.
    + lia.
    + simpl. lia.
    + rewrite Hcc1. apply size_succ_range.
    + exists s'. split; [done|]. split_and!; try done.
      rewrite H4, Hfr1, reverse_cons, fmap_app, <- app_assoc. f_equal.
      replace (Z.of_nat (S k)) with (Z.succ (Z.of_nat k)) by lia.
      cbn [fmap list_fmap]. rewrite Hcnt, Hcc1.
      rewrite (seqZ_cons 0 (Z.succ (Z.of_nat k))); [|lia]. rewrite Z.pred_succ.
      rewrite fmap_cons, !Z.add_0_r, (size_wrap_small _ Hcc). f_equal.
      change (Z.succ 0) with (1 + 0).
      rewrite <- fmap_add_seqZ, <- list_fmap_compose.
      apply list_fmap_ext. intros i x _. simpl.
      rewrite size_succ_add. f_equal. f_equal. lia.
Qed.

Lemma no_stop_keeps_running sched s :
  stopSequence_ s = false →
  forallb no_stop sched = true →
  stopSequence_ (exec env sched s) = false.
Proof.
  intros Hs. induction sched as [|a sched IH] using rev_ind; [done|].
  rewrite forallb_app, andb_true_iff. simpl. rewrite andb_true_r.
  intros [Hsched Ha]. rewrite exec_snoc. specialize (IH Hsched).
  destruct a as [fi co so| | |]; simpl in *; try done.
  - unfold StartSequenceAcquisitionImpl. by rewrite IH.
  - by rewrite worker_step_stopSequence.
Qed.

Lemma start_when_idle s fi co so :
  stopSequence_ s = true →
  StartSequenceAcquisitionImpl env fi co so s
    = (DEVICE_OK,
       set_worker (Some (mkWorker fi co so 0 AtLoop))
         (set_sequenceFuture Waiting
            (emit EvPrepareForAcq (set_stopSequence false s)))).
Proof. unfold StartSequenceAcquisitionImpl. by intros ->. Qed.

(** C3: while a sequence acquisition is running (the stop flag is clear),
    whatever the capture thread and the controlling thread do short of
    stopping, a further start, by either overload, returns [DEVICE_ERR] and
    leaves the camera, the running capture thread included, exactly as it
    was; the check and the transition are one step under the sequencing
    lock. *)
Theorem start_while_running_refused (s : State) (sched : list Action)
    (finite : bool) (count : Z) (stopOnOverflow : bool) :
  stopSequence_ s = false →
  forallb no_stop sched = true →
  let s' := exec env sched s in
  StartSequenceAcquisitionImpl env finite count stopOnOverflow s'
    = (DEVICE_ERR, s') ∧
  StartSequenceAcquisition env count stopOnOverflow s' = (DEVICE_ERR, s') ∧
  StartSequenceAcquisition_continuous env s' = (DEVICE_ERR, s').
Proof.
  intros Hs Hsched s'.
  pose proof (no_stop_keeps_running sched s Hs Hsched) as Hrun. fold s' in Hrun.
  unfold StartSequenceAcquisition, StartSequenceAcquisition_continuous,
    StartSequenceAcquisitionImpl. by rewrite Hrun.
Qed.


(** C5, as amended: after a failed delivery the capture thread reads the
    stop flag under the lock; if it was clear the thread raises the error
    once the lock is released, whatever the flag has become, and the error
    is stored as the outcome of its task instead of leaving the thread.
    The next stop, whether it comes before or after the error is stored,
    returns that code, resets the future and makes no [AcqFinished] call,
    and a repeated stop returns [DEVICE_OK] and changes nothing; a stop
    that ends a run with no error stored or about to be raised calls
    [AcqFinished] once and returns its answer. *)
Theorem worker_error_surfaced_once :
  (∀ s w err,
     worker s = Some w → pc w = AtCheck err → err ≠ DEVICE_OK →
     stopSequence_ s = false → consistent s →
     let s1 := worker_step env s in
     s1 = set_worker (Some (at_pc w (AtThrow err))) s ∧
     pending_error s1 = Some err ∧
     ∀ b, worker_step env (set_stopSequence b s1)
          = finish (Threw err) (set_stopSequence b s1)) ∧
  (∀ s code,
     stopSequence_ s = false → consistent s →
     pending_error s = Some code →
     ∃ s', StopSequenceAcquisition env s = Some (code, s') ∧
           sequenceFuture_ s' = Uninitialized ∧
           trace s' = trace s ∧
           StopSequenceAcquisition env s' = Some (DEVICE_OK, s')) ∧
  (∀ s,
     stopSequence_ s = false → consistent s →
     pending_error s = None →
     ∃ s1, StopSequenceAcquisition env s
             = Some (core_AcqFinished env (trace s1), emit EvAcqFinished s1) ∧
           count_events is_AcqFinished (trace s1)
             = count_events is_AcqFinished (trace s)).
Proof.
  split_and!.
  - intros s w err Hw Hpc Herr Hs Hc s1.
    assert (E : s1 = set_worker (Some (at_pc w (AtThrow err))) s).
    { unfold s1, worker_step.
      rewrite Hw, Hpc, Hs. by rewrite bool_decide_eq_true_2. }
    rewrite E. split_and!; [done| |].
    + unfold pending_error, consistent in *. fields. rewrite Hw in Hc.
      by rewrite Hc.
    + intros b. by apply (worker_step_trace_at_throw _ (at_pc w (AtThrow err))).
  - intros s code Hs Hc He.
    destruct (stop_with_error s code Hs Hc He) as (s' & -> & H1 & _ & H3 & H4).
    exists s'. split_and!; try done. by apply stop_when_stopped.
  - intros s Hs Hc Hne.
    destruct (stop_without_error s Hs Hc Hne) as (s1 & -> & _ & _ & _ & Hq).
    exists s1. split; [done|]. apply Hq, quiet_AcqFinished.
Qed.

(** C6: when the first delivery of a frame reports overflow and
    [stopOnOverflow] is false, the capture thread's next calls are one
    [ClearImageBuffer] and one more [InsertImage] of the same frame with the
    flag false; if that succeeds it goes on with the next frame, and a
    finite run whose deliveries all succeed at once or on that retry returns
    normally after generating every frame. *)
Theorem overflow_absorbed :
  (∀ s w f,
     worker s = Some w → pc w = AtInsert f → stopOnOverflow w = false →
     core_InsertImage env (trace s) f true = DEVICE_BUFFER_OVERFLOW →
     let first := EvInsertImage f GetImageWidth GetImageHeight
                    (GetImageBytesPerPixel env) true in
     let again := EvInsertImage f GetImageWidth GetImageHeight
                    (GetImageBytesPerPixel env) false in
     let retry := core_InsertImage env
                    (EvClearImageBuffer :: first :: trace s) f false in
     ∃ s3, run_worker 3 env s = s3 ∧
       trace s3 = again :: EvClearImageBuffer :: first :: trace s ∧
       worker s3 = Some (at_pc w (AtCheck retry)) ∧
       (retry = DEVICE_OK →
          worker_step env s3 = set_worker (Some (next_frame w)) s3)) ∧
  (∀ s k,
     stopSequence_ s = true →
     delivers env false →
     0 ≤ cumulativeSequenceCounter_ s < SIZE_MODULUS →
     let s0 := (StartSequenceAcquisition env (Z.of_nat k) false s).2 in
     ∃ s', run_worker (6 * k + 1) env s0 = s' ∧
       worker s' = None ∧ sequenceFuture_ s' = Ready Returned ∧
       length (sequence_frames (trace s'))
         = (length (sequence_frames (trace s)) + k)%nat).
Proof.
  split.
  - intros s w f Hw Hpc Hso Hov first again retry.
    destruct s as [nm sc cc si st fu wk lg tr], w as [fi co so fr p].
    cbn [worker pc stopOnOverflow trace] in *. subst wk p so.
    eexists. split.
    { one_step. rewrite Hov. rewrite bool_decide_eq_true_2 by reflexivity.
      cbn [negb andb]. one_step. one_step. cbn [run_worker]. reflexivity. }
    worker_fields. split_and!; try reflexivity.
    fold first retry. intros Hre. unfold worker_step. worker_fields.
    rewrite Hre. by rewrite bool_decide_eq_false_2 by (intros H; by apply H).
  - intros s k Hs Hdel Hcc s0. subst s0.
    unfold StartSequenceAcquisition. rewrite start_when_idle by done.
    cbn [snd].
    match goal with |- context [run_worker _ env ?st] => set (s0 := st) end.
    opose proof* (finite_run_completes k (6 * k + 1) s0
                    (mkWorker true (Z.of_nat k) false 0 AtLoop))
      as (s' & Hrun & H1 & H2 & _ & H4);
      [lia|done|done|done|simpl; lia|done|done|done|].
    exists s'. split_and!; try done.
    apply (f_equal length) in H4.
    rewrite length_app, !length_fmap, !length_reverse, length_seqZ in H4.
    simpl in H4. lia.
Qed.

(** *** What the frames carry *)
Lemma worker_step_snaps_track s : snaps_track s → snaps_track (worker_step env s).
Proof. unfold snaps_track. step_cases s; intros [H1 H2]; by split_and!. Qed.

Lemma run_worker_snaps_track n s :
  snaps_track s → snaps_track (run_worker n env s).
Proof.
  revert s. induction n as [|n IH]; intros s H; simpl; [done|].
  destruct (worker s); [|done]. by apply IH, worker_step_snaps_track.
Qed.

Lemma step_snaps_track s a : snaps_track s → snaps_track (step env s a).
Proof.
  intros H. destruct a as [fi co so| | |]; simpl.
  - unfold StartSequenceAcquisitionImpl.
    destruct (stopSequence_ s); simpl; [|done]. done.
  - unfold StopSequenceAcquisition.
    destruct (stopSequence_ s) eqn:Hs; [done|].
    assert (H1 : snaps_track (set_stopSequence true s)) by done.
    pose proof (run_worker_snaps_track AWAIT_STEPS _ H1) as H2.
    remember (run_worker AWAIT_STEPS env (set_stopSequence true s)) as s1.
    clear Heqs1. fields.
    destruct (sequenceFuture_ s) as [| |[|code]];
    [|destruct (sequenceFuture_ s1) as [| |[|code']]..]; try done.
  - unfold SnapImage, GenerateLogImage. fields.
    destruct H as [Hemb Hcnt]. unfold snaps_track. fields. simpl.
    split_and!; try done.
    rewrite Hcnt, size_wrap_succ. f_equal. lia.
  - by apply worker_step_snaps_track.
Qed.

Lemma exec_snaps_track sched nm lg :
  snaps_track (exec env sched (TesterCamera nm lg)).
Proof. apply exec_invariant; [by split|apply step_snaps_track]. Qed.

Lemma buffer_size_range : 0 ≤ GetImageBufferSize env < UINT_MODULUS.
Proof. unfold GetImageBufferSize, uint_wrap. by apply Z.mod_pos_bound. Qed.

Lemma generated_decodes nm b c l s :
  header_fits env nm → name s = nm →
  0 ≤ c < SIZE_MODULUS → 0 ≤ l < SIZE_MODULUS →
  decodes nm (GenerateLogImage env b c l s).1.
Proof.
  intros Hfit <- Hc Hl. unfold decodes, decoded, GenerateLogImage.
  cbn [fst bytes isSequenceImage cumulativeCount localCount].
  rewrite pack_decodes; [by rewrite !size_wrap_small|done|].
  pose proof buffer_size_range as Hb.
  unfold UINT_MODULUS, SIZE_MODULUS in *. lia.
Qed.

Lemma size_wrap_range z : 0 ≤ size_wrap z < SIZE_MODULUS.
Proof. unfold size_wrap. by apply Z.mod_pos_bound. Qed.

Lemma worker_step_frames_decode dev s :
  header_fits env dev →
  frames_decode dev s → frames_decode dev (worker_step env s).
Proof.
  intros Hfit. unfold frames_decode, pending_frame.
  pose proof (generated_decodes dev true (cumulativeSequenceCounter_ s)) as Hgen.
  revert Hgen.
  step_cases s; intros Hgen (Hnm & Hsc & Hcc & Htr & Hp);
    pose proof (size_succ_range cc) as Hcc';
    split_and!; try done; try lia; try (by destruct Hp);
    try (apply Forall_cons; split; [done|done]).
  all: try (apply Forall_cons; split; [|done]).
  all: apply (Hgen (size_wrap fr)
                (mkState nm sc cc si st fu
                   (Some (mkWorker fi co so fr AtGenerate)) lg tr));
         [done|done|done|apply size_wrap_range].
Qed.

Lemma run_worker_frames_decode nm n s :
  header_fits env nm →
  frames_decode nm s → frames_decode nm (run_worker n env s).
Proof.
  intros Hfit. revert s. induction n as [|n IH]; intros s H; simpl; [done|].
  destruct (worker s); [|done]. by apply IH, worker_step_frames_decode.
Qed.

Lemma step_frames_decode nm s a :
  header_fits env nm →
  frames_decode nm s → frames_decode nm (step env s a).
Proof.
  intros Hfit H. destruct a as [fi co so| | |]; simpl.
  - unfold StartSequenceAcquisitionImpl.
    destruct (stopSequence_ s); simpl; [|done].
    destruct H as (Hnm & Hsc & Hcc & Htr & _).
    unfold frames_decode. fields.
    split_and!; try done; try lia. by apply Forall_cons.
  - unfold StopSequenceAcquisition.
    destruct (stopSequence_ s) eqn:Hs; [done|].
    assert (H1 : frames_decode nm (set_stopSequence true s)) by done.
    pose proof (run_worker_frames_decode nm AWAIT_STEPS _ Hfit H1)
      as (Hnm2 & Hsc2 & Hcc2 & Htr2 & Hp2).
    remember (run_worker AWAIT_STEPS env (set_stopSequence true s)) as s1.
    clear Heqs1. destruct H as (Hnm & Hsc & Hcc & Htr & Hp). fields.
    destruct (sequenceFuture_ s) as [| |[|code]];
    [|destruct (sequenceFuture_ s1) as [| |[|code']]..];
    unfold frames_decode, pending_frame, AcqFinished in *; fields;
    split_and!; try done; try lia; by apply Forall_cons.
  - destruct H as (Hnm & Hsc & Hcc & Htr & Hp).
    pose proof (generated_decodes nm false (snapCounter_ s) 0 s Hfit Hnm Hsc
                  ltac:(done)) as Hgen.
    revert Hgen. unfold SnapImage, GenerateLogImage. fields. intros Hgen.
    pose proof (size_succ_range (snapCounter_ s)) as Hsc'.
    unfold frames_decode, pending_frame in *. fields.
    split_and!; try done; try lia.
    by apply Forall_cons.
  - by apply worker_step_frames_decode.
Qed.

Lemma exec_frames_decode sched nm lg :
  header_fits env nm →
  frames_decode nm (exec env sched (TesterCamera nm lg)).
Proof.
  intros Hfit. apply exec_invariant; [|intros; by apply step_frames_decode].
  by split_and!.
Qed.







Lemma generated_decode nm tr :
  Forall (event_decodes nm) tr → Forall (decodes nm) (generated_frames tr).
Proof.
  induction 1 as [|e tr He Htr IH]; [constructor|].
  destruct e as [|f|f w h b a| |]; simpl; try done.
  by apply Forall_cons.
Qed.







(** C8: a finite run started with a count of zero (or less) ends with the
    first step of its capture thread: the task has returned, and nothing
    but [PrepareForAcq] was called on the host, no frame delivered. *)
Theorem zero_frame_run (s : State) (count : Z) (stopOnOverflow : bool) :
  stopSequence_ s = true →
  count ≤ 0 →
  let s1 := (StartSequenceAcquisition env count stopOnOverflow s).2 in
  let s2 := worker_step env s1 in
  worker s2 = None ∧
  sequenceFuture_ s2 = Ready Returned ∧
  trace s2 = EvPrepareForAcq :: trace s ∧
  count_events is_InsertImage (trace s2)
    = count_events is_InsertImage (trace s) ∧
  (∀ n, run_worker n env s2 = s2).
Proof.
  intros Hs Hc s1 s2. subst s2 s1.
  unfold StartSequenceAcquisition. rewrite start_when_idle by done.
  cbn [snd]. unfold worker_step. worker_fields.
  replace (0 <? count) with false by (symmetry; by apply Z.ltb_ge).
  cbn [negb orb]. split_and!; try done.
  intros n. by apply run_worker_idle.
Qed.
(** *** Stop always returns *)
Lemma stop_resets s r s' :
  stopSequence_ s = false →
  StopSequenceAcquisition env s = Some (r, s') →
  sequenceFuture_ s' = Uninitialized.
Proof.
  intros Hs. unfold StopSequenceAcquisition. rewrite Hs.
  remember (run_worker AWAIT_STEPS env (set_stopSequence true s)) as s1 eqn:E.
  clear E. fields.
  destruct (sequenceFuture_ s) as [| |[|code]] eqn:Hf;
  [|destruct (sequenceFuture_ s1) as [| |[|code']]..];
    unfold AcqFinished; intros; simplify_eq; by fields.
Qed.

Lemma step_idle_reset s a :
  well_formed s → idle_reset s → idle_reset (step env s a).
Proof.
  intros Hwf Hi. destruct a as [fi co so| | |]; simpl.
  - unfold StartSequenceAcquisitionImpl.
    destruct (stopSequence_ s) eqn:Hs; simpl; [|done]. by intros ?.
  - destruct (stopSequence_ s) eqn:Hs.
    { by rewrite stop_when_stopped. }
    destruct (StopSequenceAcquisition env s) as [[r s']|] eqn:E; [|done].
    intros _. by eapply stop_resets.
  - unfold idle_reset, SnapImage, GenerateLogImage in *. by fields.
  - unfold idle_reset. rewrite worker_step_stopSequence. intros Hs.
    destruct Hwf as [_ Hw]. rewrite worker_step_idle by auto. auto.
Qed.

Lemma exec_idle_reset sched nm lg :
  idle_reset (exec env sched (TesterCamera nm lg)).
Proof.
  assert (H : well_formed (exec env sched (TesterCamera nm lg))
              ∧ idle_reset (exec env sched (TesterCamera nm lg))).
  { apply (exec_invariant (λ s, well_formed s ∧ idle_reset s)).
    - split; [apply well_formed_fresh|done].
    - intros s a [H1 H2]. split;
        [by apply step_well_formed | by apply step_idle_reset]. }
  apply H.
Qed.

(** X5: after any history of a camera that started fresh, a camera that is
    not capturing has no capture thread and no pending future, and
    [StopSequenceAcquisition] returns (the wait for the capture task ends)
    and leaves the camera not capturing, without a thread and with the
    future reset. *)
Theorem stop_always_returns (nm : string) (lg : SettingLogger.t)
    (sched : list Action) :
  let s := exec env sched (TesterCamera nm lg) in
  (IsCapturing s = true ∨
     (worker s = None ∧ sequenceFuture_ s = Uninitialized)) ∧
  ∃ r s', StopSequenceAcquisition env s = Some (r, s') ∧
          IsCapturing s' = false ∧ worker s' = None ∧
          sequenceFuture_ s' = Uninitialized.
Proof.
  intros s.
  pose proof (exec_well_formed sched _ (well_formed_fresh nm lg)) as Hwf.
  pose proof (exec_idle_reset sched nm lg) as Hir. fold s in Hwf, Hir.
  assert (Hidle : ∀ s0, well_formed s0 → idle_reset s0 →
            IsCapturing s0 = false →
            worker s0 = None ∧ sequenceFuture_ s0 = Uninitialized).
  { intros s0 [_ H1] H2. unfold IsCapturing. rewrite negb_false_iff.
    intros Hs. auto. }
  split.
  { destruct (IsCapturing s) eqn:Hcap; [by left|right; by apply Hidle]. }
  destruct (stop_total s Hwf) as (r & s' & Hstop & Hwf').
  exists r, s'. split; [done|].
  assert (Hs' : stopSequence_ s' = true).
  { destruct (stopSequence_ s) eqn:Hs.
    - rewrite stop_when_stopped in Hstop by done. by simplify_eq.
    - by destruct (stop_effect s r s' Hs Hstop). }
  assert (Hir' : idle_reset s').
  { destruct (stopSequence_ s) eqn:Hs.
    - rewrite stop_when_stopped in Hstop by done. by simplify_eq.
    - intros _. by eapply stop_resets. }
  unfold IsCapturing. rewrite Hs'. split; [done|].
  destruct Hwf' as [_ Hw]. auto.
Qed.




(** *** Errors that end a run *)
(** X7: when the delivery of a frame fails while no stop is requested, with
    an error other than an overflow that is to be absorbed, the capture
    thread, left to itself, ends with that code as its outcome, never calls
    [ClearImageBuffer], and the next stop returns the code. *)
Theorem delivery_error_ends_run (s : State) (w : Worker) (f : Frame)
    (err : ResultCode) :
  worker s = Some w →
  pc w = AtInsert f →
  stopSequence_ s = false →
  core_InsertImage env (trace s) f true = err →
  err ≠ DEVICE_OK →
  stopOnOverflow w = true ∨ err ≠ DEVICE_BUFFER_OVERFLOW →
  let s2 := run_worker 3 env s in
  s2 = finish (Threw err)
         (emit (EvInsertImage f GetImageWidth GetImageHeight
                  (GetImageBytesPerPixel env) true) s) ∧
  count_events is_ClearImageBuffer (trace s2)
    = count_events is_ClearImageBuffer (trace s) ∧
  StopSequenceAcquisition env s2
    = Some (err, set_sequenceFuture Uninitialized (set_stopSequence true s2)).
Proof.
  intros Hw Hpc Hs Herr Hne Hpol s2.
  assert (H2 : s2 = finish (Threw err)
         (emit (EvInsertImage f GetImageWidth GetImageHeight
                  (GetImageBytesPerPixel env) true) s)).
  { unfold s2. destruct s as [nm sc cc si st fu wk lg tr],
      w as [fi co so fr p].
    cbn [worker pc stopOnOverflow trace stopSequence_] in *.
    subst wk p st. one_step. rewrite Herr.
    replace (negb so && bool_decide (err = DEVICE_BUFFER_OVERFLOW))
      with false.
    2:{ destruct Hpol as [-> | Hov]; [done|].
        by rewrite (bool_decide_eq_false_2 _ Hov), andb_false_r. }
    one_step. rewrite (bool_decide_eq_true_2 _ Hne). cbn [negb].
    one_step. reflexivity. }
  split_and!; [done|by rewrite H2|].
  apply stop_after_error; by rewrite H2.
Qed.

(** *** Snapped images *)
(** X8: after any history of a camera that started fresh and whose image
    buffer has room for the payload's head, every frame generated so far
    decodes to the flag and counts it was generated with, and every still
    among them embeds the number of snaps before it.  [SnapImage] succeeds,
    and [GetImageBuffer] then returns the still it made, whose bytes decode
    to the camera's name, the still flag and the number of earlier snaps;
    the snap leaves the sequence untouched: cumulative counter, stop flag,
    capture thread, future and sequence frames. *)
Theorem snap_counts (nm : string) (lg : SettingLogger.t)
    (sched : list Action) :
  header_fits env nm →
  let s := exec env sched (TesterCamera nm lg) in
  let snapped := (SnapImage env s).2 in
  snaps_embedded (trace s) ∧
  Forall (decodes nm) (generated_frames (trace s)) ∧
  (SnapImage env s).1 = DEVICE_OK ∧
  (∃ f, GetImageBuffer snapped = Some f ∧
        generated_frames (trace snapped) = f :: generated_frames (trace s) ∧
        (λ h, (h.1.1.1, h.1.1.2, h.1.2)) <$> decoded f
          = Some (nm, false,
                  size_wrap (Z.of_nat (length (snap_frames (trace s)))))) ∧
  cumulativeSequenceCounter_ snapped = cumulativeSequenceCounter_ s ∧
  stopSequence_ snapped = stopSequence_ s ∧
  worker snapped = worker s ∧
  sequenceFuture_ snapped = sequenceFuture_ s ∧
  sequence_frames (trace snapped) = sequence_frames (trace s).
Proof.
  intros Hfit s snapped.
  destruct (exec_snaps_track sched nm lg) as [Hemb Hcnt].
  destruct (exec_frames_decode sched nm lg Hfit)
    as (Hnm & Hsc & _ & Hdec & _).
  fold s in Hemb, Hcnt, Hnm, Hsc, Hdec.
  pose proof (generated_decodes nm false (snapCounter_ s) 0 s Hfit Hnm Hsc
                ltac:(done)) as Hgen.
  revert Hgen.
  unfold snapped, SnapImage, GenerateLogImage, GetImageBuffer, decodes.
  fields. cbn [isSequenceImage cumulativeCount localCount]. intros Hgen.
  split_and!; try done; [by apply generated_decode|].
  eexists. split_and!; [done|done|]. rewrite Hgen. simpl. by rewrite Hcnt.
Qed.

(** *** The size of the buffers handed to the host *)
Lemma generated_sized b c l s : frame_sized env (GenerateLogImage env b c l s).1.
Proof.
  unfold frame_sized, GenerateLogImage. cbn [fst bytes].
  by rewrite PackAndReset_length, length_replicate.
Qed.

Lemma worker_step_buffers_sized s :
  buffers_sized env s → buffers_sized env (worker_step env s).
Proof.
  unfold buffers_sized, pending_sized.
  pose proof (generated_sized true (cumulativeSequenceCounter_ s)) as Hgen.
  revert Hgen.
  step_cases s; intros Hgen [Htr Hp]; split; try done;
    try (apply Forall_cons; split; [by split_and!|done]).
  - by apply Forall_cons.
  - apply (Hgen (size_wrap fr)
             (mkState nm sc cc si st fu
                (Some (mkWorker fi co so fr AtGenerate)) lg tr)).
  - by apply Forall_cons.
Qed.

Lemma run_worker_buffers_sized n s :
  buffers_sized env s → buffers_sized env (run_worker n env s).
Proof.
  revert s. induction n as [|n IH]; intros s H; simpl; [done|].
  destruct (worker s); [|done]. by apply IH, worker_step_buffers_sized.
Qed.

Lemma step_buffers_sized s a :
  buffers_sized env s → buffers_sized env (step env s a).
Proof.
  intros H. destruct a as [fi co so| | |]; simpl.
  - unfold StartSequenceAcquisitionImpl.
    destruct (stopSequence_ s); simpl; [|done].
    destruct H as [Htr _]. split; [|done]. by apply Forall_cons.
  - unfold StopSequenceAcquisition.
    destruct (stopSequence_ s) eqn:Hs; [done|].
    assert (H1 : buffers_sized env (set_stopSequence true s)) by done.
    pose proof (run_worker_buffers_sized AWAIT_STEPS _ H1) as [H2 H3].
    remember (run_worker AWAIT_STEPS env (set_stopSequence true s)) as s1.
    clear Heqs1. destruct H as [Htr Hp]. fields.
    destruct (sequenceFuture_ s) as [| |[|code]];
    [|destruct (sequenceFuture_ s1) as [| |[|code']]..]; try done;
    split; try done; by apply Forall_cons.
  - unfold SnapImage, GenerateLogImage. fields.
    destruct H as [Htr Hp]. split; [by apply Forall_cons|done].
  - by apply worker_step_buffers_sized.
Qed.

(** X9: every [InsertImage] call a fresh camera ever makes announces a
    128 x 128 image of the camera's pixel depth and hands over a buffer of
    [GetImageBufferSize] bytes, however long the log was that was packed
    into it: that is width * height * bytesPerPixel bytes as long as the
    pixel depth is below 2^18, and no byte at all for a pixel depth of
    2^18, where the [unsigned] product wraps. *)
Theorem inserted_buffers_sized (nm : string) (lg : SettingLogger.t)
    (sched : list Action) :
  let tr := trace (exec env sched (TesterCamera nm lg)) in
  let depth := GetImageBytesPerPixel env in
  Forall (insert_carries env (Z.to_nat (GetImageBufferSize env))) tr ∧
  (0 ≤ depth < 2 ^ 18 →
     Forall (insert_carries env (Z.to_nat (128 * 128 * depth))) tr) ∧
  (depth = 2 ^ 18 → Forall (insert_carries env 0) tr).
Proof.
  intros tr depth.
  assert (Hb : buffers_sized env (exec env sched (TesterCamera nm lg))).
  { apply (exec_invariant (buffers_sized env)); [by split|].
    apply step_buffers_sized. }
  destruct Hb as [Htr _]. fold tr in Htr. unfold insert_sized in Htr.
  split_and!; [done| |].
  - intros Hd. replace (128 * 128 * depth) with (GetImageBufferSize env);
      [done|].
    unfold GetImageBufferSize, uint_wrap, UINT_MODULUS.
    fold depth. change (GetImageWidth * GetImageHeight) with 16384.
    rewrite (Z.mod_small 16384) by lia. apply Z.mod_small. lia.
  - intros Hd. replace 0%nat with (Z.to_nat (GetImageBufferSize env));
      [done|].
    unfold GetImageBufferSize. fold depth. by rewrite Hd.
Qed.

(** *** IsCapturing *)
(** X10: a start on a stopped camera succeeds, and from then on, whatever
    happens short of a stop, [IsCapturing] is true: also after the capture
    thread of a finite run has delivered all its frames and is gone. *)
Theorem capturing_until_stop (s : State) (finite : bool) (count : Z)
    (stopOnOverflow : bool) (sched : list Action) :
  stopSequence_ s = true →
  forallb no_stop sched = true →
  let started := StartSequenceAcquisitionImpl env finite count stopOnOverflow s in
  started.1 = DEVICE_OK ∧
  IsCapturing (exec env sched started.2) = true ∧
  (∀ k, finite = true → count = Z.of_nat k →
        delivers env stopOnOverflow →
        0 ≤ cumulativeSequenceCounter_ s < SIZE_MODULUS →
        worker (run_worker (6 * k + 1) env started.2) = None ∧
        IsCapturing (run_worker (6 * k + 1) env started.2) = true).
Proof.
  intros Hs Hsched started. unfold started.
  rewrite start_when_idle by done. cbn [fst snd].
  split_and!; [done| |].
  - unfold IsCapturing. by rewrite no_stop_keeps_running.
  - intros k -> -> Hdel Hcc.
    match goal with |- context [run_worker _ env ?st] => set (s0 := st) end.
    opose proof* (finite_run_completes k (6 * k + 1) s0
                    (mkWorker true (Z.of_nat k) stopOnOverflow 0 AtLoop))
      as (s' & Hrun & H1 & H2 & H3 & _);
      [lia|done|done|done|simpl; lia|done|done|done|].
    rewrite Hrun. unfold IsCapturing. by rewrite H3.
Qed.
End CameraFacts.

(** *** The camera on concrete hosts *)
Section CameraExamples.
Import Camera.

Lemma start_while_running_refused_witness :
  let s' := exec accepting_host [ActWorker; ActSnap; ActStart false 0 false]
              running_camera in
  StartSequenceAcquisitionImpl accepting_host true 5 false s'
    = (DEVICE_ERR, s') ∧
  StartSequenceAcquisition accepting_host 5 false s' = (DEVICE_ERR, s') ∧
  StartSequenceAcquisition_continuous accepting_host s' = (DEVICE_ERR, s').
Proof.
  apply (start_while_running_refused accepting_host running_camera
           [ActWorker; ActSnap; ActStart false 0 false] true 5 false);
    vm_compute; reflexivity.
Defined.


(** C5 fails as stated: the stop that ends the failed run returns the
    captured error and the host never hears [AcqFinished]; so it is when
    the stop comes while the error is still about to be raised. *)
Lemma stop_after_error_skips_AcqFinished :
  stopSequence_ failed_run = false ∧
  sequenceFuture_ failed_run = Ready (Threw DEVICE_ERR) ∧
  fst <$> StopSequenceAcquisition failing_host failed_run = Some DEVICE_ERR ∧
  (λ rs, count_events is_AcqFinished (trace rs.2))
    <$> StopSequenceAcquisition failing_host failed_run = Some 0%nat ∧
  stopSequence_ interrupted_run = false ∧
  sequenceFuture_ interrupted_run = Waiting ∧
  fst <$> StopSequenceAcquisition failing_host interrupted_run
    = Some DEVICE_ERR ∧
  (λ rs, count_events is_AcqFinished (trace rs.2))
    <$> StopSequenceAcquisition failing_host interrupted_run = Some 0%nat.
Proof. vm_compute. done. Qed.

Lemma worker_error_surfaced_once_witness :
  ∃ s', StopSequenceAcquisition failing_host interrupted_run
          = Some (DEVICE_ERR, s') ∧
        sequenceFuture_ s' = Uninitialized ∧
        trace s' = trace interrupted_run ∧
        StopSequenceAcquisition failing_host s' = Some (DEVICE_OK, s').
Proof.
  apply (proj1 (proj2 (worker_error_surfaced_once failing_host))
           interrupted_run DEVICE_ERR); vm_compute; reflexivity.
Defined.

Lemma overflow_absorbed_witness :
  ∃ s', run_worker 19 overflow_once_host
          (StartSequenceAcquisition overflow_once_host 3 false
             fresh_camera).2 = s' ∧
        worker s' = None ∧ sequenceFuture_ s' = Ready Returned ∧
        length (sequence_frames (trace s')) = 3%nat.
Proof.
  apply (proj2 (overflow_absorbed overflow_once_host) fresh_camera 3%nat).
  - reflexivity.
  - intros tr f. simpl.
    destruct (count_events is_InsertImage tr =? 0)%nat.
    + right. repeat split.
    + left. reflexivity.
  - unfold SIZE_MODULUS. simpl. lia.
Defined.



Lemma zero_frame_run_witness :
  let s1 := (StartSequenceAcquisition accepting_host 0 true fresh_camera).2 in
  let s2 := worker_step accepting_host s1 in
  worker s2 = None ∧
  sequenceFuture_ s2 = Ready Returned ∧
  trace s2 = EvPrepareForAcq :: trace fresh_camera ∧
  count_events is_InsertImage (trace s2)
    = count_events is_InsertImage (trace fresh_camera) ∧
  (∀ n, run_worker n accepting_host s2 = s2).
Proof.
  apply (zero_frame_run accepting_host fresh_camera 0 true); [reflexivity|lia].
Defined.


Lemma delivery_error_ends_run_witness :
  let s2 := run_worker 3 failing_host offering_camera in
  s2 = finish (Threw DEVICE_ERR)
         (emit (EvInsertImage offered_frame GetImageWidth GetImageHeight
                  (GetImageBytesPerPixel failing_host) true)
            offering_camera) ∧
  count_events is_ClearImageBuffer (trace s2)
    = count_events is_ClearImageBuffer (trace offering_camera) ∧
  StopSequenceAcquisition failing_host s2
    = Some (DEVICE_ERR,
            set_sequenceFuture Uninitialized (set_stopSequence true s2)).
Proof.
  apply (delivery_error_ends_run failing_host offering_camera
           (mkWorker true 1 false 0 (AtInsert offered_frame)) offered_frame
           DEVICE_ERR);
    [vm_compute; reflexivity | reflexivity | reflexivity | reflexivity
    | discriminate | right; discriminate].
Defined.

Lemma snap_counts_witness :
  let s := exec accepting_host [ActSnap; ActStart true 2 false; ActWorker]
             fresh_camera in
  let snapped := (SnapImage accepting_host s).2 in
  snaps_embedded (trace s) ∧
  Forall (decodes "TCamera-0") (generated_frames (trace s)) ∧
  (SnapImage accepting_host s).1 = DEVICE_OK ∧
  (∃ f, GetImageBuffer snapped = Some f ∧
        generated_frames (trace snapped) = f :: generated_frames (trace s) ∧
        (λ h, (h.1.1.1, h.1.1.2, h.1.2)) <$> decoded f
          = Some ("TCamera-0", false,
                  size_wrap (Z.of_nat (length (snap_frames (trace s)))))) ∧
  cumulativeSequenceCounter_ snapped = cumulativeSequenceCounter_ s ∧
  stopSequence_ snapped = stopSequence_ s ∧
  worker snapped = worker s ∧
  sequenceFuture_ snapped = sequenceFuture_ s ∧
  sequence_frames (trace snapped) = sequence_frames (trace s).
Proof.
  apply (snap_counts accepting_host "TCamera-0" SettingLogger.empty
           [ActSnap; ActStart true 2 false; ActWorker]).
  apply Nat.leb_le. vm_compute. reflexivity.
Defined.

Lemma inserted_buffers_sized_witness :
  let tr := trace (exec accepting_host
                     [ActStart true 2 false; ActWorker; ActWorker; ActWorker]
                     fresh_camera) in
  Forall (insert_carries accepting_host (Z.to_nat (128 * 128 * 1))) tr.
Proof.
  apply (proj1 (proj2 (inserted_buffers_sized accepting_host "TCamera-0"
                         SettingLogger.empty
                         [ActStart true 2 false; ActWorker; ActWorker;
                          ActWorker]))).
  vm_compute. split; [discriminate|reflexivity].
Defined.

Lemma capturing_until_stop_witness :
  let started := StartSequenceAcquisitionImpl accepting_host true 2 true
                   fresh_camera in
  started.1 = DEVICE_OK ∧
  IsCapturing (exec accepting_host [ActWorker; ActSnap; ActWorker] started.2)
    = true ∧
  (∀ k, true = true → 2 = Z.of_nat k →
        delivers accepting_host true →
        0 ≤ cumulativeSequenceCounter_ fresh_camera < SIZE_MODULUS →
        worker (run_worker (6 * k + 1) accepting_host started.2) = None ∧
        IsCapturing (run_worker (6 * k + 1) accepting_host started.2) = true).
Proof.
  apply (capturing_until_stop accepting_host fresh_camera true 2 true
           [ActWorker; ActSnap; ActWorker]); reflexivity.
Defined.
End CameraExamples.

(** ** The XY stage *)
Section XYStageFacts.
Import SettingLogger Setting XYStage.

Lemma Set_guardDepth {T} `{SettingValue T} tid v (s : Setting.t T) lg :
  guardDepth (Set_ tid v s lg).2 = guardDepth lg.
Proof. by destruct (Set_step tid v s lg) as [-> | (e & _ & ->)]. Qed.

Lemma Set_stores {T} `{SettingValue T} tid v (s : Setting.t T) lg :
  (Set_ tid v s lg).1.1 = DEVICE_OK → value (Set_ tid v s lg).1.2 = v.
Proof.
  unfold Set_. destruct (preInitOnly s && initialized s); [done|].
  by destruct (below_min s v || above_max s v).
Qed.

(** C10: [SetPositionSteps] takes the guard once, then writes X and then Y,
    Y on the log as X's write left it and whether or not X's write failed,
    and only then releases the guard; it returns X's code if that is an
    error, else Y's code if that is an error, else [DEVICE_OK]; so an
    accepted Y is stored even when X was refused. *)
Theorem set_position_attempts_both (tid : nat) (x y : Z)
    (st : XYStage.State) :
  let r1 := Set_ tid x (xPositionSteps_ st) (Guard (XYStage.logger st)) in
  let r2 := Set_ tid y (yPositionSteps_ st) r1.2 in
  let err1 := r1.1.1 in
  let err2 := r2.1.1 in
  SetPositionSteps tid x y st
    = (if bool_decide (err1 ≠ DEVICE_OK) then err1
       else if bool_decide (err2 ≠ DEVICE_OK) then err2
       else DEVICE_OK,
       XYStage.mkState r1.1.2 r2.1.2 true (Release r2.2)) ∧
  guardDepth r1.2 = S (guardDepth (XYStage.logger st)) ∧
  guardDepth r2.2 = S (guardDepth (XYStage.logger st)) ∧
  (err2 = DEVICE_OK →
     value (yPositionSteps_ (SetPositionSteps tid x y st).2) = y).
Proof.
  intros r1 r2 err1 err2.
  assert (Heq : SetPositionSteps tid x y st
    = (if bool_decide (err1 ≠ DEVICE_OK) then err1
       else if bool_decide (err2 ≠ DEVICE_OK) then err2
       else DEVICE_OK,
       XYStage.mkState r1.1.2 r2.1.2 true (Release r2.2))).
  { unfold SetPositionSteps, err1, err2, r2, r1.
    destruct (Set_ tid x _ _) as [[e1 xs] g1]. cbn [fst snd].
    destruct (Set_ tid y _ _) as [[e2 ys] g2]. cbn [fst snd].
    by repeat case_bool_decide. }
  split_and!.
  - exact Heq.
  - unfold r1. by rewrite Set_guardDepth.
  - unfold r2, r1. by rewrite !Set_guardDepth.
  - intros Hok. rewrite Heq. cbn [snd yPositionSteps_].
    by apply Set_stores.
Qed.

Lemma set_position_attempts_both_witness :
  (SetPositionSteps 1 50 7 limited_stage).1 = OutOfRange ∧
  value (yPositionSteps_ (SetPositionSteps 1 50 7 limited_stage).2) = 7.
Proof.
  pose proof (set_position_attempts_both 1 50 7 limited_stage)
    as (Heq & _ & _ & Hy).
  split; [by rewrite Heq | by apply Hy].
Defined.
Lemma Set_unrestricted {T} `{SettingValue T} tid v (s : Setting.t T) lg :
  unrestricted s →
  Set_ tid v s lg
    = (DEVICE_OK, with_value s v,
       mkLogger (size_succ (counter lg))
         (entries lg ++ [mkEntry (counter lg) tid (Setting.name s) Write
                           (value_text v)])
         (guardDepth lg)).
Proof.
  intros (Hmin & Hmax & Hpre). unfold Set_, below_min, above_max.
  rewrite Hmin, Hmax, Hpre. simpl. by destruct lg.
Qed.

Lemma with_value_unrestricted {T} (s : Setting.t T) `{SettingValue T} v :
  unrestricted s → unrestricted (with_value s v).
Proof. by intros (? & ? & ?). Qed.

(** X13: on a stage whose position settings are unrestricted,
    [SetPositionSteps x y] succeeds and a following [GetPositionSteps]
    returns [DEVICE_OK] and [(x, y)]; together they append four entries to
    the log, the writes of X and Y and then the reads of X and Y, and the
    guard is released as it was found. *)
Theorem position_round_trip (tid : nat) (x y : Z) (st : State) :
  unrestricted (xPositionSteps_ st) →
  unrestricted (yPositionSteps_ st) →
  let moved := SetPositionSteps tid x y st in
  let read := GetPositionSteps tid moved.2 in
  moved.1 = DEVICE_OK ∧
  read.1 = (DEVICE_OK, (x, y)) ∧
  kind <$> entries (logger read.2)
    = (kind <$> entries (logger st)) ++ [Write; Write; Read; Read] ∧
  settingName <$> entries (logger read.2)
    = (settingName <$> entries (logger st))
      ++ [Setting.name (xPositionSteps_ st); Setting.name (yPositionSteps_ st);
          Setting.name (xPositionSteps_ st); Setting.name (yPositionSteps_ st)] ∧
  guardDepth (logger read.2) = guardDepth (logger st) ∧
  unrestricted (xPositionSteps_ read.2) ∧
  unrestricted (yPositionSteps_ read.2).
Proof.
  intros Hx Hy moved read. unfold read, moved, SetPositionSteps.
  rewrite (Set_unrestricted _ _ _ _ Hx), (Set_unrestricted _ _ _ _ Hy).
  unfold GetPositionSteps, GetTo, Get.
  cbn [fst snd logger xPositionSteps_ yPositionSteps_ Release Guard
       recordRead record entries counter guardDepth bool_decide decide
       Setting.name with_value busy].
  rewrite !bool_decide_eq_false_2 by (intros H; by apply H).
  cbn [fst snd logger xPositionSteps_ yPositionSteps_ Release Guard
       recordRead record entries counter guardDepth
       Setting.name Setting.value with_value busy].
  rewrite !fmap_app, <- !app_assoc.
  split_and!; try done; by apply with_value_unrestricted.
Qed.

Lemma GetPositionSteps_reads tid st :
  (GetPositionSteps tid st).1
    = (DEVICE_OK, (value (xPositionSteps_ st), value (yPositionSteps_ st))).
Proof. unfold GetPositionSteps, GetTo, Get. simpl. done. Qed.

Lemma SetPositionSteps_unrestricted tid x y st :
  unrestricted (xPositionSteps_ st) →
  unrestricted (yPositionSteps_ st) →
  let moved := SetPositionSteps tid x y st in
  moved.1 = DEVICE_OK ∧
  value (xPositionSteps_ moved.2) = x ∧
  value (yPositionSteps_ moved.2) = y ∧
  unrestricted (xPositionSteps_ moved.2) ∧
  unrestricted (yPositionSteps_ moved.2).
Proof.
  intros Hx Hy moved. unfold moved, SetPositionSteps.
  rewrite (Set_unrestricted _ _ _ _ Hx), (Set_unrestricted _ _ _ _ Hy).
  simpl. split_and!; try done; by apply with_value_unrestricted.
Qed.

(** X14: a stage as [Initialize] makes it is at (0, 0); after any series of
    moves [GetPositionSteps] returns the target of the last one, and a
    further [SetPositionSteps] succeeds whatever the target. *)
Theorem initialized_stage_follows_moves (lg : SettingLogger.t) (tid : nat)
    (ps : list (Z * Z)) (x y : Z) :
  let st := moves tid ps (Initialize lg) in
  (GetPositionSteps tid st).1 = (DEVICE_OK, default (0, 0) (last ps)) ∧
  (SetPositionSteps tid x y st).1 = DEVICE_OK.
Proof.
  intros st. rewrite GetPositionSteps_reads.
  assert (H : unrestricted (xPositionSteps_ st) ∧
              unrestricted (yPositionSteps_ st) ∧
              (value (xPositionSteps_ st), value (yPositionSteps_ st))
                = default (0, 0) (last ps)).
  { unfold st, moves. induction ps as [|p ps IH] using rev_ind.
    - by split_and!.
    - rewrite foldl_app, last_snoc. simpl.
      destruct IH as (Hx & Hy & _).
      destruct (SetPositionSteps_unrestricted tid p.1 p.2 _ Hx Hy)
        as (_ & -> & -> & Hx' & Hy').
      split_and!; try done. by destruct p. }
  destruct H as (Hx & Hy & ->). split; [done|].
  by destruct (SetPositionSteps_unrestricted tid x y st Hx Hy).
Qed.

Lemma position_round_trip_witness :
  let moved := SetPositionSteps 1 250 (-40) (Initialize SettingLogger.empty) in
  let read := GetPositionSteps 1 moved.2 in
  moved.1 = DEVICE_OK ∧
  read.1 = (DEVICE_OK, (250, -40)) ∧
  kind <$> entries (XYStage.logger read.2) = [Write; Write; Read; Read] ∧
  settingName <$> entries (XYStage.logger read.2)
    = ["XPositionSteps"; "YPositionSteps"; "XPositionSteps";
       "YPositionSteps"] ∧
  guardDepth (XYStage.logger read.2) = 0%nat ∧
  unrestricted (xPositionSteps_ read.2) ∧
  unrestricted (yPositionSteps_ read.2).
Proof.
  apply (position_round_trip 1 250 (-40) (Initialize SettingLogger.empty));
    repeat split.
Defined.
End XYStageFacts.

(** ** The camera's settings *)
Section CameraSettingsFacts.
Import SettingLogger Setting CameraSettings.

Lemma Set_binning tid b lg :
  Set_ tid b binning lg
  = if bool_decide (b = 1)
    then (DEVICE_OK, binning, Release (recordWrite tid "Binning" (pretty b) (Guard lg)))
    else (OutOfRange, binning, lg).
Proof.
  unfold Set_, below_min, above_max. simpl.
  case_bool_decide as Hb.
  - subst b. done.
  - rewrite Release_Guard.
    destruct (b <? 1) eqn:H1; [done|]. destruct (1 <? b) eqn:H2; [done|].
    apply Z.ltb_ge in H1, H2. lia.
Qed.

Lemma do_call_shape st c : shape_kept st → shape_kept (do_call st c).
Proof.
  intros (Hb & H1 & H2 & H3). destruct c; simpl.
  - by unfold GetBinning.
  - unfold SetBinning. rewrite Hb, Set_binning. by case_bool_decide.
  - unfold SetExposure, Set_. rewrite H3. simpl.
    by destruct (below_min _ _ || above_max _ _).
  - by unfold GetExposure.
Qed.

Lemma run_calls_shape cs lg : shape_kept (run_calls cs (Initialize lg)).
Proof.
  unfold run_calls. induction cs as [|c cs IH] using rev_ind; [done|].
  rewrite foldl_app. by apply do_call_shape.
Qed.

(** X11: after any calls on the camera's settings, [GetBinning] returns 1;
    [SetBinning] succeeds for 1 and returns [OutOfRange] for every other
    size, and the binning is 1 afterwards either way. *)
Theorem binning_is_always_one (cs : list Call) (lg : SettingLogger.t)
    (tid : nat) (binSize : Z) :
  let st := run_calls cs (Initialize lg) in
  (GetBinning tid st).1 = 1 ∧
  (SetBinning tid binSize st).1
    = (if bool_decide (binSize = 1) then DEVICE_OK else OutOfRange) ∧
  (GetBinning tid (SetBinning tid binSize st).2).1 = 1.
Proof.
  intros st. destruct (run_calls_shape cs lg) as (Hb & _). fold st in Hb.
  assert (Hget : ∀ st0, binningSetting_ st0 = binning →
                        (GetBinning tid st0).1 = 1).
  { intros st0 H0. unfold GetBinning. by rewrite H0. }
  split_and!.
  - by apply Hget.
  - unfold SetBinning. rewrite Hb, Set_binning. by case_bool_decide.
  - apply Hget. unfold SetBinning. rewrite Hb, Set_binning.
    by case_bool_decide.
Qed.

(** X12: [SetExposure] gives no result; after any calls on the camera's
    settings, an exposure below 0.1 or above 1000.0 is dropped without a
    trace (the exposure read back is the old one and the log is unchanged),
    and any other is stored, read back and logged as one Write. *)
Theorem exposure_out_of_range_ignored (cs : list Call)
    (lg : SettingLogger.t) (tid : nat) (v : float) :
  let st := run_calls cs (Initialize lg) in
  let st' := SetExposure tid v st in
  (GetExposure tid st').1
    = (if exposure_rejects v then (GetExposure tid st).1 else v) ∧
  (if exposure_rejects v
   then logger st' = logger st
   else entries (logger st')
        = entries (logger st)
          ++ [mkEntry (counter (logger st)) tid
                (Setting.name (exposureSetting_ st)) Write (value_text v)]).
Proof.
  intros st st'. destruct (run_calls_shape cs lg) as (_ & H1 & H2 & H3).
  fold st in H1, H2, H3.
  unfold st', SetExposure, GetExposure, Set_, below_min, above_max,
    exposure_rejects.
  rewrite H1, H2, H3. simpl.
  destruct (_ || _); simpl; [by rewrite !Release_Guard|done].
Qed.
End CameraSettingsFacts.

(** ** Creating and detecting devices *)
Section HubFacts.
Import Hub.

Lemma substring_prefix prefix s :
  String.substring 0 (String.length prefix) s = prefix
  ↔ ∃ rest, s = prefix +:+ rest.
Proof.
  revert s. induction prefix as [|c p IH]; intros s; simpl.
  - split; [intros _; by exists s|]. intros _. by destruct s.
  - destruct s as [|c' s]; simpl.
    + split; [done|]. by intros [rest ?].
    + split.
      * intros Heq. injection Heq as -> Hs. apply IH in Hs as [rest ->].
        by exists rest.
      * intros [rest Heq]. injection Heq as -> ->. f_equal.
        apply IH. by exists rest.
Qed.

Lemma StartsWith_true prefix s :
  StartsWith prefix s = true → ∃ rest, s = prefix +:+ rest.
Proof.
  unfold StartsWith. rewrite String.eqb_eq. apply substring_prefix.
Qed.

(** X1: [StartsWith prefix s] holds exactly when [s] is [prefix] followed
    by something, also when [s] is shorter than [prefix]. *)
Theorem StartsWith_spec (prefix s : string) :
  StartsWith prefix s = true ↔ ∃ rest, s = prefix +:+ rest.
Proof.
  split; [apply StartsWith_true|].
  intros Hrest. unfold StartsWith. apply String.eqb_eq.
  by apply substring_prefix.
Qed.

(** X2: whatever follows the prefix, a name that begins with the prefix of
    a peripheral class creates a device of that class under that very name;
    the hub is created by its exact name only. *)
Theorem CreateDevice_by_prefix (suffix : string) :
  CreateDevice (Some ("TCamera" +:+ suffix))
    = Some (mkDevice TesterCamera ("TCamera" +:+ suffix)) ∧
  CreateDevice (Some ("TShutter" +:+ suffix))
    = Some (mkDevice TesterShutter ("TShutter" +:+ suffix)) ∧
  CreateDevice (Some ("TXYStage" +:+ suffix))
    = Some (mkDevice TesterXYStage ("TXYStage" +:+ suffix)) ∧
  CreateDevice (Some ("TZStage" +:+ suffix))
    = Some (mkDevice TesterZStage ("TZStage" +:+ suffix)) ∧
  CreateDevice (Some ("TAFStage" +:+ suffix))
    = Some (mkDevice TesterAFStage ("TAFStage" +:+ suffix)) ∧
  CreateDevice (Some ("TAutofocus" +:+ suffix))
    = Some (mkDevice TesterAutofocus ("TAutofocus" +:+ suffix)) ∧
  CreateDevice (Some ("THub" +:+ suffix))
    = (if String.eqb suffix "" then Some (mkDevice TesterHub "THub")
       else None).
Proof.
  split_and!; by destruct suffix.
Qed.

(** X4: whatever was installed before, [DetectInstalledDevices] succeeds
    and leaves exactly twelve devices with distinct names, each of which
    [CreateDevice] creates, from its name, as the same class; detecting
    again changes nothing. *)
Theorem detected_devices_can_be_created (installed : list Device) :
  (DetectInstalledDevices installed).1 = DEVICE_OK ∧
  length (DetectInstalledDevices installed).2 = 12%nat ∧
  NoDup (name <$> (DetectInstalledDevices installed).2) ∧
  Forall (λ d, CreateDevice (Some (name d)) = Some d)
    (DetectInstalledDevices installed).2 ∧
  DetectInstalledDevices (DetectInstalledDevices installed).2
    = DetectInstalledDevices installed.
Proof.
  split_and!; try reflexivity.
  - compute_done.
  - simpl. repeat (apply Forall_cons; split; [reflexivity|]).
    apply Forall_nil_2.
Qed.

(** X3: [CreateDevice] returns the null pointer exactly for the null name
    and for the names that are not the hub's and begin with no peripheral
    class's prefix. *)
Theorem CreateDevice_unknown (deviceName : option string) :
  CreateDevice deviceName = None ↔
  match deviceName with
  | None => True
  | Some n =>
      n ≠ "THub" ∧
      ∀ c, c ≠ TesterHub → ¬ ∃ rest, n = class_prefix c +:+ rest
  end.
Proof.
  destruct deviceName as [n|]; [|done]. unfold CreateDevice.
  destruct (String.eqb_spec n "THub") as [->|Hhub].
  { split; [done|]. by intros [? _]. }
  split.
  - intros Hnone. split; [done|]. intros c Hc Hpre.
    assert (Hsw : StartsWith (class_prefix c) n = true).
    { unfold StartsWith. apply String.eqb_eq. by apply substring_prefix. }
    clear Hpre. rename Hsw into Hpre.
    destruct c; simpl in Hpre; try done; rewrite Hpre in Hnone;
      repeat case_match; done.
  - intros [_ Hno].
    repeat (case_match;
      [match goal with H : StartsWith _ _ = true |- _ =>
         apply StartsWith_true in H end|]); try done.
    + by destruct (Hno TesterCamera).
    + by destruct (Hno TesterShutter).
    + by destruct (Hno TesterXYStage).
    + by destruct (Hno TesterZStage).
    + by destruct (Hno TesterAFStage).
    + by destruct (Hno TesterAutofocus).
Qed.

Lemma StartsWith_spec_witness : StartsWith "TCamera" "TCamera-0" = true.
Proof.
  apply (proj2 (StartsWith_spec "TCamera" "TCamera-0")).
  exists "-0". reflexivity.
Defined.

Lemma CreateDevice_unknown_witness :
  "TCam" ≠ "THub" ∧
  ∀ c, c ≠ TesterHub → ¬ ∃ rest, "TCam" = class_prefix c +:+ rest.
Proof.
  apply (proj1 (CreateDevice_unknown (Some "TCam"))). reflexivity.
Defined.
End HubFacts.
